(** * zipf: word and symbol frequency counting over a directory tree

    A shallow embedding of [zipf.go] (package [zipf]) and the properties of
    its frequency table ([Add]), its walk ([Walk]) and its report
    ([Report]).

    Conventions of the embedding:
    - Go's [int64] and [int] (64 bits wide, as on the 64-bit platforms) are
      [Z] with the two's-complement wrap-around written out ([wrap64]);
    - [map[string]int64] is a [gmap string Z]; the order of a [range] over it
      is not defined by Go and is an explicit argument of the code that
      ranges;
    - a Go [error] is a value of [error]; a function returning [(v, err)]
      returns a pair whose second component is [None] for [nil];
    - a method with a pointer receiver takes the [Zipf] value and returns the
      new one. *)

From stdpp Require Import base numbers option list sorting pretty strings gmap fin_maps.
From Stdlib Require Import ZArith Lia.

Local Open Scope string_scope.
Local Open Scope list_scope.
Local Open Scope Z_scope.

Module zipf.

(** ** Machine integers *)

Definition min_int64 : Z := - 2 ^ 63.
Definition max_int64 : Z := 2 ^ 63 - 1.

(** The value an [int64] (or a 64-bit [int]) holds after an arithmetic
    result [x]: Go wraps around on overflow. *)
Definition wrap64 (x : Z) : Z := (x + 2 ^ 63) mod 2 ^ 64 - 2 ^ 63.

(** ** Errors, the mutex, terms and the analyser *)

(** [errors.New(msg)], and the errors [os] and [bufio] report. *)
Inductive error : Type :=
| errors_New (msg : string)
| os_error (msg : string).

(** [sync.RWMutex], as far as the package uses it: only [RLock] and
    [RUnlock] are ever called, so the state is the number of readers that
    hold the lock, and [RLock] never blocks. *)
Record RWMutex : Type := mkRWMutex { readerCount : nat }.

(** [type Term struct { Word string; Count int64 }] *)
Record Term : Type := mkTerm { Word : string; Count : Z }.

(** [type Zipf struct]; [W] is the state of the [io.Writer] behind [out]. *)
Record Zipf (W : Type) : Type := mkZipf {
  path : string;
  limit : Z;
  out : W;
  symbols : bool;
  words : gmap string Z;
  counts : gmap Z string;
  collection : list Term;
  mu : RWMutex
}.

Arguments mkZipf {W}.
Arguments path {W}.
Arguments limit {W}.
Arguments out {W}.
Arguments symbols {W}.
Arguments words {W}.
Arguments counts {W}.
Arguments collection {W}.
Arguments mu {W}.

Section Aggregator.

Context {W : Type}.

Definition set_words (z : Zipf W) (m : gmap string Z) : Zipf W :=
  mkZipf (path z) (limit z) (out z) (symbols z) m (counts z) (collection z) (mu z).

Definition set_collection (z : Zipf W) (c : list Term) : Zipf W :=
  mkZipf (path z) (limit z) (out z) (symbols z) (words z) (counts z) c (mu z).

Definition set_out (z : Zipf W) (o : W) : Zipf W :=
  mkZipf (path z) (limit z) o (symbols z) (words z) (counts z) (collection z) (mu z).

Definition set_mu (z : Zipf W) (m : RWMutex) : Zipf W :=
  mkZipf (path z) (limit z) (out z) (symbols z) (words z) (counts z) (collection z) m.

(** [z.RLock()] and [z.RUnlock()]. Every [RUnlock] of the package follows
    an [RLock] of the same call, so it never meets an unlocked mutex. *)
Definition RLock (z : Zipf W) : Zipf W :=
  set_mu z (mkRWMutex (S (readerCount (mu z)))).

Definition RUnlock (z : Zipf W) : Zipf W :=
  set_mu z (mkRWMutex (Nat.pred (readerCount (mu z)))).

(** [New]: a [Zipf] with empty maps, a nil collection and an unlocked mutex,
    or the error for an empty directory. *)
Definition New (dir : string) (lim : Z) (syms : bool) (output : W)
  : option (Zipf W) * option error :=
  if String.eqb dir "" then (None, Some (errors_New "empty dir"))
  else (Some (mkZipf dir lim output syms ∅ ∅ [] (mkRWMutex 0)), None).

(** [count, ok := m[s]]: the zero value and [false] when [s] is absent. *)
Definition index2 (m : gmap string Z) (s : string) : Z * bool :=
  match m !! s with
  | Some c => (c, true)
  | None => (0, false)
  end.

(** [Add]. The deferred [RUnlock] runs on both returns. *)
Definition Add (z : Zipf W) (s : string) : Zipf W * option error :=
  let z := RLock z in
  if String.eqb s "" then (RUnlock z, Some (errors_New "empty word"))
  else
    let '(count, ok) := index2 (words z) s in
    let z := if negb ok then set_words z (<[s := 1]> (words z)) else z in
    let z := set_words z (<[s := wrap64 (count + 1)]> (words z)) in
    (RUnlock z, None).

(** A run of [Add] calls, one after the other, stopping at the first one
    that fails: the loops [for _, w := range words { if err := z.Add(w); err
    != nil { return err } }] of [Walk]. *)
Fixpoint AddEach (z : Zipf W) (ws : list string) : Zipf W * option error :=
  match ws with
  | [] => (z, None)
  | w :: ws' =>
      match Add z w with
      | (z', Some e) => (z', Some e)
      | (z', None) => AddEach z' ws'
      end
  end.

(** The count the table holds for [t], [0] when [t] is absent. *)
Definition count_of (m : gmap string Z) (t : string) : Z := default 0 (m !! t).

(** How many times [t] occurs in [ts]. *)
Definition occurrences (t : string) (ts : list string) : nat :=
  length (filter (λ u, u = t) ts).

End Aggregator.

(** The predicate on the table: every stored count is at least 1, and the
    empty string is not a key. *)
Definition table_inv (m : gmap string Z) : Prop :=
  (∀ t c, m !! t = Some c → 1 ≤ c) ∧ m !! "" = None.

(** From [m] to [m'] no key is removed and no count decreases. *)
Definition never_shrinks (m m' : gmap string Z) : Prop :=
  ∀ t c, m !! t = Some c → ∃ c', m' !! t = Some c' ∧ c ≤ c'.

(** ** Goroutines calling [Add]

    [Add] is not one atomic action: between its statements other goroutines
    run. A goroutine inside [Add] is at one of the program points below; the
    local variables [count] and [ok] live in the program point. The shared
    [Zipf] is read and written one statement at a time (the most a Go map
    could offer; the runtime gives unsynchronised map writes no guarantee at
    all). *)

Inductive AddPC : Type :=
| AtRLock                          (* before [z.RLock()] *)
| AtCheck                          (* before [if s == ""] *)
| AtIndex                          (* before [count, ok := z.words[s]] *)
| AtInsert (count : Z) (ok : bool) (* before [if !ok { z.words[s] = 1 }] *)
| AtStore (count : Z)              (* before [z.words[s] = count + 1] *)
| AtRUnlock (ret : option error)   (* before the deferred [z.RUnlock()] *)
| Returned (ret : option error).   (* [Add] has returned [ret] *)

Record goroutine : Type := mkGoroutine { arg : string; pc : AddPC }.

(** A goroutine about to call [z.Add(s)]. *)
Definition go_Add (s : string) : goroutine := mkGoroutine s AtRLock.

Section Goroutines.

Context {W : Type}.

(** One statement of [Add], run by goroutine [g] on the shared [z]. [RLock]
    is always enabled: a read lock excludes writers only, and nothing in the
    package takes the write lock. *)
Definition step_Add (z : Zipf W) (g : goroutine) : option (Zipf W * goroutine) :=
  let s := arg g in
  match pc g with
  | AtRLock => Some (RLock z, mkGoroutine s AtCheck)
  | AtCheck =>
      if String.eqb s "" then Some (z, mkGoroutine s (AtRUnlock (Some (errors_New "empty word"))))
      else Some (z, mkGoroutine s AtIndex)
  | AtIndex => let '(count, ok) := index2 (words z) s in Some (z, mkGoroutine s (AtInsert count ok))
  | AtInsert count ok =>
      Some (if negb ok then set_words z (<[s := 1]> (words z)) else z, mkGoroutine s (AtStore count))
  | AtStore count =>
      Some (set_words z (<[s := wrap64 (count + 1)]> (words z)), mkGoroutine s (AtRUnlock None))
  | AtRUnlock ret => Some (RUnlock z, mkGoroutine s (Returned ret))
  | Returned _ => None
  end.

(** Goroutine number [i] takes its next step; [None] when there is no such
    goroutine or it has returned. *)
Definition sched_step (c : Zipf W * list goroutine) (i : nat) : option (Zipf W * list goroutine) :=
  let '(z, gs) := c in
  match gs !! i with
  | None => None
  | Some g =>
      match step_Add z g with
      | None => None
      | Some (z', g') => Some (z', <[i := g']> gs)
      end
  end.

(** An interleaving: the goroutines step in the order the schedule lists. *)
Fixpoint run_schedule (c : Zipf W * list goroutine) (sched : list nat)
  : option (Zipf W * list goroutine) :=
  match sched with
  | [] => Some c
  | i :: sched' =>
      match sched_step c i with
      | None => None
      | Some c' => run_schedule c' sched'
      end
  end.

(** The calls of [gs] that have returned [nil] for the term [t]. *)
Definition returned_nil (t : string) (g : goroutine) : bool :=
  match pc g with
  | Returned None => String.eqb (arg g) t
  | _ => false
  end.

Definition successful_calls (t : string) (gs : list goroutine) : nat :=
  length (filter (λ g, returned_nil t g = true) gs).

End Goroutines.

(** ** The report *)

(** [io.Writer]: [Write] takes the bytes and gives the new state of the
    writer with the [(n, err)] it returns. *)
Class Writer (W : Type) : Type := Write : W → string → W * (Z * option error).

(** What [sort.Sort] asks of [Less]: a strict weak ordering. *)
Record StrictWeak {A : Type} (less : A → A → bool) : Prop := mkStrictWeak {
  less_asym : ∀ a b, less a b = true → less b a = false;
  less_negtrans : ∀ a b c, less b a = false → less c b = false → less c a = false
}.

(** [sort.Sort] of a slice under a [Less] method: the standard library
    documents the outcome (the same elements, in ascending order as
    determined by [Less], equal elements in any order), not the algorithm.
    An implementation is any function with that outcome. *)
Class Sorter : Type := mkSorter {
  sort_Sort : (Term → Term → bool) → list Term → list Term;
  sort_Sort_perm : ∀ less l, sort_Sort less l ≡ₚ l;
  sort_Sort_sorted : ∀ less l,
    StrictWeak less → StronglySorted (λ a b, less b a = false) (sort_Sort less l)
}.

(** Modelled from the spec: the type [ByCountAsc] and its [Less] method,
    which [zipf.go] uses and another file of the package declares. The spec
    has the selected entries sorted ascending by count, by a comparator that
    only orders by count. *)
Definition ByCountAsc_Less (a b : Term) : bool := bool_decide (Count a < Count b).

(** The line feed that ends a line. *)
Definition newline : string := String (Ascii.ascii_of_nat 10) "".

(** The bytes of [fmt.Fprintf(z.out, "%s %d\n", x.Word, x.Count)]. *)
Definition format_Term (x : Term) : string :=
  Word x +:+ " " +:+ pretty (Count x) +:+ newline.

Section Reporter.

Context {W : Type} `{!Writer W} `{!Sorter}.

(** [for k, c := range z.words { i++; if i > z.limit { continue }; z.collection
    = append(z.collection, Term{Word: k, Count: c}) }], over the entries in
    the order [iter] in which the runtime yields them. *)
Fixpoint range_words (lim : Z) (i : Z) (coll : list Term) (iter : list (string * Z))
  : list Term :=
  match iter with
  | [] => coll
  | (k, c) :: rest =>
      let i := wrap64 (i + 1) in
      if bool_decide (i > lim) then range_words lim i coll rest
      else range_words lim i (coll ++ [mkTerm k c]) rest
  end.

(** [fmt.Fprintf] formats and calls [Write] once. *)
Definition Fprintf_Term (w : W) (x : Term) : W * (Z * option error) :=
  Write w (format_Term x).

(** [for i := range z.collection { x := z.collection[i]; fmt.Fprintf(...) }]:
    what [Fprintf] returns is dropped. *)
Fixpoint print_each (w : W) (c : list Term) : W :=
  match c with
  | [] => w
  | x :: c' => let '(w', _) := Fprintf_Term w x in print_each w' c'
  end.

(** [Report]; [iter] is the order in which [range z.words] yields the
    entries of the table. *)
Definition Report (z : Zipf W) (iter : list (string * Z)) : Zipf W * option error :=
  let z := RLock z in
  let z := set_collection z (range_words (limit z) 0 (collection z) iter) in
  let z := set_collection z (sort_Sort ByCountAsc_Less (collection z)) in
  let z := set_out z (print_each (out z) (collection z)) in
  (RUnlock z, None).

(** The [Write] calls [ls], one after the other. *)
Definition write_all (w : W) (ls : list string) : W :=
  fold_left (λ w l, (Write w l).1) ls w.

(** The lines [Report] hands to [Write], in order. *)
Definition Report_lines (z : Zipf W) (iter : list (string * Z)) : list string :=
  format_Term <$> collection (Report z iter).1.

End Reporter.

(** An order in which [range m] may yield the entries of [m]: each entry
    once. *)
Definition range_order (m : gmap string Z) (iter : list (string * Z)) : Prop :=
  iter ≡ₚ map_to_list m.

(** ** The walk *)

(** [os.FileInfo], as far as [Walk] reads it. *)
Record FileInfo : Type := mkFileInfo { IsDir : bool }.

(** What [readLines] meets at a path: the error of [os.Open], the lines the
    scanner yields, the scanner's final error and the error of [Close]. *)
Record File : Type := mkFile {
  open_err : option error;
  scanned : list string;
  scan_err : option error;
  close_err : option error
}.

(** One call [filepath.Walk] makes to its function argument. *)
Record visit : Type := mkVisit {
  v_name : string;
  v_info : option FileInfo;
  v_err : option error
}.

Section Traverser.

Context {W : Type}.

(** [SplitWord] and [SplitSymbol] are declared in another file of the
    package; [Walk] only needs their results, so they are parameters. *)
Variable SplitWord : string → list string * option error.
Variable SplitSymbol : string → list string * option error.

(** The file system: what is at each path, and the calls [filepath.Walk(dir,
    fn)] makes to [fn] for as long as [fn] returns [nil]. *)
Variable os_Open : string → File.
Variable tree : string → list visit.

Definition readLines (p : string) : list string * option error :=
  let f := os_Open p in
  match open_err f with
  | Some e => ([], Some e)
  | None =>
      let lines := filter (λ line, ¬ (String.length line < 1)%nat) (scanned f) in
      match close_err f with
      | Some e => ([], Some e)
      | None => (lines, scan_err f)
      end
  end.

(** The body of [for i := range lines]: [None] when the loop goes on to the
    next line ([continue] or the end of the body), [Some e] when the function
    returns [e]. *)
Definition line_body (z : Zipf W) (line : string) : Zipf W * option error :=
  if bool_decide (String.length line < 1)%nat then (z, None)
  else
    let '(ws, err) := SplitWord line in
    match err with
    | Some _ => (z, None)
    | None =>
        match AddEach z ws with
        | (z', Some e) => (z', Some e)
        | (z', None) =>
            if symbols z' then
              let '(ss, err) := SplitSymbol line in
              match err with
              | Some _ => (z', None)
              | None => AddEach z' ss
              end
            else (z', None)
        end
    end.

(** The tokens [line_body] hands to [Add] for a line, in order, when no
    call fails: the words, then the symbols if they are counted; none for an
    empty line or a line [SplitWord] fails on. *)
Definition line_tokens (syms : bool) (line : string) : list string :=
  if bool_decide (String.length line < 1)%nat then []
  else
    let '(ws, err) := SplitWord line in
    match err with
    | Some _ => []
    | None =>
        if syms then
          let '(ss, err) := SplitSymbol line in
          match err with
          | Some _ => ws
          | None => ws ++ ss
          end
        else ws
    end.

Fixpoint each_line (z : Zipf W) (lines : list string) : Zipf W * option error :=
  match lines with
  | [] => (z, None)
  | line :: lines' =>
      match line_body z line with
      | (z', Some e) => (z', Some e)
      | (z', None) => each_line z' lines'
      end
  end.

(** The function [Walk] passes to [filepath.Walk]; it never reads its [err]
    argument. *)
Definition walk_fn (z : Zipf W) (name : string) (info : option FileInfo) (err : option error)
  : Zipf W * option error :=
  if match info with Some i => IsDir i | None => false end then (z, None)
  else
    let '(lines, err) := readLines name in
    match err with
    | Some e => (z, Some e)
    | None => each_line z lines
    end.

(** [filepath.Walk]: it stops at the first error its function returns and
    returns it. ([filepath.SkipDir] and [filepath.SkipAll] are the
    exceptions; [walk_fn] returns neither.) *)
Fixpoint filepath_Walk (vs : list visit) (z : Zipf W) : Zipf W * option error :=
  match vs with
  | [] => (z, None)
  | v :: vs' =>
      match walk_fn z (v_name v) (v_info v) (v_err v) with
      | (z', Some e) => (z', Some e)
      | (z', None) => filepath_Walk vs' z'
      end
  end.

Definition Walk (z : Zipf W) (dir : string) : Zipf W * option error :=
  filepath_Walk (tree dir) z.

(** [Run]: the walk, then the report. *)
Definition Run `{!Writer W} `{!Sorter} (z : Zipf W) (iter : gmap string Z → list (string * Z))
  : Zipf W * option error :=
  match Walk z (path z) with
  | (z', Some e) => (z', Some e)
  | (z', None) =>
      match Report z' (iter (words z')) with
      | (z'', Some e) => (z'', Some e)
      | (z'', None) => (z'', None)
      end
  end.

End Traverser.

(** ** The tokens of a walk *)

(** The test [info != nil && info.IsDir()] of [walk_fn], on a visit. *)
Definition is_dir (v : visit) : bool :=
  match v_info v with Some i => IsDir i | None => false end.

Section Tokens.

Variable SplitWord : string → list string * option error.
Variable SplitSymbol : string → list string * option error.
Variable os_Open : string → File.

(** The tokens of the lines of a file, in order; the tokens of a visit (none
    for a directory); the tokens of a list of visits. *)
Definition lines_tokens (syms : bool) (lines : list string) : list string :=
  concat (line_tokens SplitWord SplitSymbol syms <$> lines).

Definition visit_tokens (syms : bool) (v : visit) : list string :=
  if is_dir v then [] else lines_tokens syms (readLines os_Open (v_name v)).1.

Definition walk_tokens (syms : bool) (vs : list visit) : list string :=
  concat (visit_tokens syms <$> vs).

(** [readLines] returns a nil error for every file among the visits. *)
Definition reads_ok (vs : list visit) : Prop :=
  ∀ v, v ∈ vs → is_dir v = false → (readLines os_Open (v_name v)).2 = None.

End Tokens.

(** The entry of a token in a list of tokens: the token with the number of
    times it occurs. *)
Definition token_Term (toks : list string) (t : string) : Term :=
  mkTerm t (Z.of_nat (occurrences t toks)).

(** A goroutine that holds the read lock: it is past [z.RLock()] and before
    the deferred [z.RUnlock()]. *)
Definition holds_RLock (g : goroutine) : bool :=
  match pc g with
  | AtRLock | Returned _ => false
  | _ => true
  end.

Definition lock_count (g : goroutine) : nat := if holds_RLock g then 1%nat else 0%nat.

Definition lock_holders (gs : list goroutine) : nat :=
  length (filter (λ g, holds_RLock g = true) gs).

(** ** Implementations and data for the examples *)

(** A writer that keeps what it is given, and one that takes nothing and
    reports an error on every call. *)
Definition recorder : Writer (list string) :=
  λ w l, (w ++ [l], (Z.of_nat (String.length l), None)).

Inductive closed_pipe : Type := ClosedPipe.

Definition closed_pipe_Writer : Writer closed_pipe :=
  λ w _, (w, (0, Some (os_error "write on closed pipe"))).

(** An implementation of [sort.Sort]: merge sort, which puts [a] before [b]
    when [b] is not less than [a]. *)
Definition not_Less (less : Term → Term → bool) : relation Term :=
  λ a b, less b a = false.

#[local] Instance not_Less_dec less a b : Decision (not_Less less a b).
Proof. unfold not_Less. apply _. Defined.

Lemma merge_sort_Less_sorted (less : Term → Term → bool) (l : list Term) :
  StrictWeak less →
  StronglySorted (λ a b, less b a = false) (merge_sort (not_Less less) l).
Proof.
  intros [Hasym Hneg].
  assert (Transitive (not_Less less)) by (intros a b c Hab Hbc; by eapply Hneg).
  assert (Total (not_Less less)).
  { intros a b. unfold not_Less. destruct (less b a) eqn:Hba; [right; by apply Hasym|by left]. }
  apply (StronglySorted_merge_sort (not_Less less)).
Qed.

Definition merge_Sorter : Sorter :=
  mkSorter (λ less, merge_sort (not_Less less))
           (λ less l, merge_sort_Permutation _ l)
           merge_sort_Less_sorted.

(** A [Zipf] whose table holds the one term ["a"] with the largest [int64]
    as its count. *)
Definition z_full : Zipf unit :=
  mkZipf "dir" 10 tt false {[ "a" := max_int64 ]} ∅ [] (mkRWMutex 0).

(** [New("dir", 10, false, output)]. *)
Definition z_new {W : Type} (output : W) : Zipf W :=
  mkZipf "dir" 10 output false ∅ ∅ [] (mkRWMutex 0).

(** Two goroutines call [Add("a")] on a new [Zipf] and take turns, one
    statement each. *)
Definition two_adds : Zipf unit * list goroutine := (z_new tt, [go_Add "a"; go_Add "a"]).

Definition alternate : list nat := [0; 1; 0; 1; 0; 1; 0; 1; 0; 1; 0; 1]%nat.

(** [New]; [Add("a")]. *)
Definition z_a : Zipf (list string) := (Add (z_new []) "a").1.

(** ... then [Report]. *)
Definition z_a_reported : Zipf (list string) :=
  (@Report _ recorder merge_Sorter z_a [("a", 1)]).1.

(** ... then [Add("a")] once more. *)
Definition z_a_again : Zipf (list string) := (Add z_a_reported "a").1.

(** A tokenizer and a directory for examples: [SplitWord] fails on the line
    ["??"], yields an empty token in the middle of the line ["bad"], and
    otherwise yields the line as its one word; [SplitSymbol] yields one
    ["?"]; every file holds the same four lines; the directory holds two
    files. *)
Definition demo_SplitWord (line : string) : list string * option error :=
  if String.eqb line "??" then ([], Some (errors_New "no words"))
  else if String.eqb line "bad" then (["x"; ""; "y"], None)
  else ([line], None).

Definition demo_SplitSymbol (line : string) : list string * option error := (["?"], None).

Definition demo_Open (lines : list string) (p : string) : File := mkFile None lines None None.

Definition demo_tree (dir : string) : list visit :=
  [ mkVisit dir (Some (mkFileInfo true)) None;
    mkVisit (dir +:+ "/f") (Some (mkFileInfo false)) None;
    mkVisit (dir +:+ "/g") (Some (mkFileInfo false)) None ].

(** A tokenizer that splits at spaces, and a directory with the one file
    [cat.txt]. *)
Definition space_SplitWord (line : string) : list string * option error :=
  (String.words line, None).

Definition cat_tree (dir : string) : list visit :=
  [ mkVisit dir (Some (mkFileInfo true)) None;
    mkVisit (dir +:+ "/cat.txt") (Some (mkFileInfo false)) None ].

(** A symbol splitter whose second token is empty. *)
Definition bang_SplitSymbol (line : string) : list string * option error :=
  (["!"; ""], None).

(** [New("dir", 10, true, output)]: symbols are counted. *)
Definition z_symbols : Zipf unit := mkZipf "dir" 10 tt true ∅ ∅ [] (mkRWMutex 0).

(** A file system in which the scanner of [dir/g] stops with an error after
    the line ["three"]; the other files hold the lines ["one"] and ["two
    two"]. *)
Definition broken_Open (p : string) : File :=
  if String.eqb p "dir/g" then mkFile None ["three"] (Some (os_error "read error")) None
  else mkFile None ["one"; ""; "two two"] None None.

(** * Properties *)

(** ** Machine integers *)

Lemma wrap64_in_range (x : Z) : min_int64 ≤ x ≤ max_int64 → wrap64 x = x.
Proof.
  unfold wrap64, min_int64, max_int64. intros Hx.
  rewrite Z.mod_small; lia.
Qed.

Lemma wrap64_max_succ : wrap64 (max_int64 + 1) = min_int64.
Proof. reflexivity. Qed.

Lemma wrap64_add_l (a b : Z) : wrap64 (wrap64 a + b) = wrap64 (a + b).
Proof.
  unfold wrap64. f_equal.
  replace ((a + 2 ^ 63) mod 2 ^ 64 - 2 ^ 63 + b + 2 ^ 63)
    with ((a + 2 ^ 63) mod 2 ^ 64 + b) by lia.
  rewrite Zplus_mod_idemp_l. f_equal. lia.
Qed.

(** ** The frequency table under [Add] *)

Section AggregatorFacts.

Context {W : Type}.
Implicit Types (z : Zipf W) (s t : string) (m : gmap string Z).

Lemma RUnlock_RLock z : RUnlock (RLock z) = z.
Proof. by destruct z as [? ? ? ? ? ? ? []]. Qed.

Lemma RUnlock_set_words_RLock z m : RUnlock (set_words (RLock z) m) = set_words z m.
Proof. by destruct z as [? ? ? ? ? ? ? []]. Qed.

Lemma eqb_empty_false s : s ≠ "" → String.eqb s "" = false.
Proof. intros Hs. by apply String.eqb_neq. Qed.

(** The failing call: the error, and the very same [Zipf]. *)
Lemma Add_empty z : Add z "" = (z, Some (errors_New "empty word")).
Proof. unfold Add. simpl. by rewrite RUnlock_RLock. Qed.

(** The succeeding call, whatever the stored count is: the count that was
    read (0 when [s] is absent) plus one, wrapped to 64 bits, is stored under
    [s]; nothing else changes. *)
Lemma Add_nonempty z s :
  s ≠ "" → Add z s = (set_words z (<[s := wrap64 (count_of (words z) s + 1)]> (words z)), None).
Proof.
  intros Hs. unfold Add. rewrite (eqb_empty_false _ Hs).
  destruct z as [p l o sy m cs co [n]].
  unfold index2, count_of, RLock, RUnlock, set_words, set_mu. cbn.
  destruct (m !! s) as [c|] eqn:Hc; cbn; [done|].
  by rewrite insert_insert_eq.
Qed.

Lemma words_Add_nonempty z s :
  s ≠ "" → words (Add z s).1 = <[s := wrap64 (count_of (words z) s + 1)]> (words z).
Proof. intros Hs. by rewrite Add_nonempty. Qed.

Lemma count_of_insert_eq m t c : count_of (<[t := c]> m) t = c.
Proof. unfold count_of. by rewrite lookup_insert_eq. Qed.

Lemma count_of_insert_ne m t u c : u ≠ t → count_of (<[u := c]> m) t = count_of m t.
Proof. intros Hne. unfold count_of. by rewrite lookup_insert_ne. Qed.

Lemma occurrences_nil t : occurrences t [] = 0%nat.
Proof. done. Qed.

Lemma occurrences_cons_eq t ts : occurrences t (t :: ts) = S (occurrences t ts).
Proof. unfold occurrences. by rewrite filter_cons_True. Qed.

Lemma occurrences_cons_ne t u ts : u ≠ t → occurrences t (u :: ts) = occurrences t ts.
Proof. intros Hne. unfold occurrences. by rewrite filter_cons_False. Qed.

Lemma AddEach_cons_nonempty z w ws :
  w ≠ "" →
  AddEach z (w :: ws)
  = AddEach (set_words z (<[w := wrap64 (count_of (words z) w + 1)]> (words z))) ws.
Proof. intros Hw. cbn [AddEach]. by rewrite Add_nonempty. Qed.

(** Without an empty string every call of the run succeeds. *)
Lemma AddEach_ok z ts : "" ∉ ts → (AddEach z ts).2 = None.
Proof.
  revert z. induction ts as [|w ts IH]; intros z Hts; [done|].
  apply not_elem_of_cons in Hts as [Hw Hts].
  rewrite AddEach_cons_nonempty by done. by apply IH.
Qed.

(** The count of [t] after a run of calls, from any table, as long as the
    count stays an [int64]. *)
Lemma AddEach_lookup z ts t :
  "" ∉ ts →
  min_int64 ≤ count_of (words z) t →
  count_of (words z) t + Z.of_nat (occurrences t ts) ≤ max_int64 →
  words (AddEach z ts).1 !! t
  = if decide (occurrences t ts = 0%nat) then words z !! t
    else Some (count_of (words z) t + Z.of_nat (occurrences t ts)).
Proof.
  revert z. induction ts as [|w ts IH]; intros z Hts Hlo Hhi; [done|].
  apply not_elem_of_cons in Hts as [Hw Hts].
  rewrite AddEach_cons_nonempty by done.
  destruct (decide (w = t)) as [->|Hne].
  - rewrite occurrences_cons_eq in Hhi |- *.
    rewrite decide_False by done.
    assert (wrap64 (count_of (words z) t + 1) = count_of (words z) t + 1) as Hwrap
      by (apply wrap64_in_range; unfold min_int64, max_int64 in *; lia).
    rewrite IH; cbn [words set_words]; rewrite ?count_of_insert_eq, ?Hwrap;
      [|done|lia|lia].
    case_decide as Hocc.
    + rewrite lookup_insert_eq, Hocc. f_equal; lia.
    + f_equal; lia.
  - rewrite occurrences_cons_ne in Hhi |- * by done.
    rewrite IH; cbn [words set_words]; rewrite ?count_of_insert_ne by done; [|done..].
    case_decide; [|done]. by rewrite lookup_insert_ne.
Qed.

(** The same term added again and again, from any table and with no bound:
    the stored count is the count it started from plus the number of calls,
    wrapped to 64 bits. *)
Lemma AddEach_replicate z t n :
  t ≠ "" →
  words (AddEach z (replicate (S n) t)).1 !! t
  = Some (wrap64 (count_of (words z) t + Z.of_nat (S n))).
Proof.
  intros Ht. revert z. induction n as [|n IH]; intros z.
  - cbn [replicate]. rewrite AddEach_cons_nonempty by done. cbn [AddEach fst words set_words].
    by rewrite lookup_insert_eq.
  - change (replicate (S (S n)) t) with (t :: replicate (S n) t).
    rewrite AddEach_cons_nonempty, IH by done. cbn [words set_words].
    rewrite count_of_insert_eq, wrap64_add_l. do 2 f_equal. lia.
Qed.

(** C3: [Add("")] returns the error and hands back the very same [Zipf]
    (every field, so the same keys and the same counts), whatever the table
    holds; and [Add(s)] returns an error exactly when [s] is the empty
    string. *)
Theorem Add_fails_only_on_empty z s :
  Add z "" = (z, Some (errors_New "empty word")) ∧ (is_Some (Add z s).2 ↔ s = "").
Proof.
  split; [apply Add_empty|].
  destruct (decide (s = "")) as [->|Hs].
  - rewrite Add_empty. split; eauto.
  - rewrite Add_nonempty by done. split; [|done].
    intros [e He]. discriminate He.
Qed.

(** C2, as the code has it: for a non-empty [t] whose stored count (0 when
    [t] is absent) is an [int64] below the largest one, [Add(t)] returns nil,
    stores that count plus one under [t] (so 1 for an absent [t]) and changes
    nothing else; and on a [Zipf] made by [New], after a run of [Add] calls
    with no empty string, all calls have returned nil and the count of each
    [t] is the number of [Add(t)] calls, as long as that number is an
    [int64]; [t] is a key exactly when it was added. *)
Theorem Add_counts_calls :
  (∀ z t, t ≠ "" → min_int64 ≤ count_of (words z) t < max_int64 →
     Add z t = (set_words z (<[t := count_of (words z) t + 1]> (words z)), None))
  ∧
  (∀ dir lim syms (output : W) z ts t,
     New dir lim syms output = (Some z, None) →
     "" ∉ ts → Z.of_nat (occurrences t ts) ≤ max_int64 →
     (AddEach z ts).2 = None
     ∧ count_of (words (AddEach z ts).1) t = Z.of_nat (occurrences t ts)
     ∧ (is_Some (words (AddEach z ts).1 !! t) ↔ occurrences t ts ≠ 0%nat)).
Proof.
  split.
  - intros z t Ht Hc. rewrite Add_nonempty by done.
    rewrite wrap64_in_range; [done|]. unfold min_int64, max_int64 in *. lia.
  - intros dir lim syms output z ts t HNew Hts Hocc.
    unfold New in HNew. destruct (String.eqb dir ""); [done|].
    injection HNew as <-.
    split; [by apply AddEach_ok|].
    unfold count_of at 1.
    rewrite AddEach_lookup; cbn [words]; unfold count_of; rewrite ?lookup_empty;
      simpl; [|done|done|lia].
    case_decide as Hz.
    + rewrite Hz. split; [done|]. split; [by intros [? ?]|done].
    + split; [simpl; lia|]. split; [done|eauto].
Qed.

Lemma table_inv_empty : table_inv ∅.
Proof. split; [|done]. intros t c Hc. by rewrite lookup_empty in Hc. Qed.

Lemma never_shrinks_refl m : never_shrinks m m.
Proof. intros t c Hc. eauto with lia. Qed.

Lemma never_shrinks_trans m1 m2 m3 :
  never_shrinks m1 m2 → never_shrinks m2 m3 → never_shrinks m1 m3.
Proof.
  intros H12 H23 t c Hc.
  destruct (H12 t c Hc) as (c2 & Hc2 & Hle2).
  destruct (H23 t c2 Hc2) as (c3 & Hc3 & Hle3).
  exists c3. split; [done|lia].
Qed.

(** One call on a term whose stored count is below the largest [int64]:
    the predicate is kept and nothing shrinks. *)
Lemma Add_table_inv z s :
  table_inv (words z) → count_of (words z) s < max_int64 →
  table_inv (words (Add z s).1) ∧ never_shrinks (words z) (words (Add z s).1).
Proof.
  intros Hinv Hc. destruct (decide (s = "")) as [->|Hs].
  { rewrite Add_empty. split; [done|apply never_shrinks_refl]. }
  destruct Hinv as [Hpos Hempty].
  rewrite words_Add_nonempty by done.
  assert (0 ≤ count_of (words z) s) as Hc0.
  { unfold count_of. destruct (words z !! s) as [c|] eqn:Hs'; simpl; [|lia].
    specialize (Hpos s c Hs'). lia. }
  rewrite wrap64_in_range by (unfold min_int64, max_int64 in *; lia).
  split; [split|].
  - intros t c. rewrite lookup_insert. case_decide; [|by apply Hpos].
    intros [= <-]. lia.
  - by rewrite lookup_insert_ne.
  - intros t c Ht. destruct (decide (s = t)) as [->|Hne].
    + rewrite lookup_insert_eq. eexists; split; [done|].
      unfold count_of. rewrite Ht. simpl. lia.
    + rewrite lookup_insert_ne by done. eauto with lia.
Qed.

(** The counts grow by at most one in a call. *)
Lemma Add_count_bound z s n :
  table_inv (words z) →
  (∀ t c, words z !! t = Some c → c ≤ n) → 0 ≤ n < max_int64 →
  ∀ t c, words (Add z s).1 !! t = Some c → c ≤ n + 1.
Proof.
  intros [Hpos Hempty] Hn Hmax t c.
  destruct (decide (s = "")) as [->|Hs].
  { rewrite Add_empty. intros Hc. specialize (Hn t c Hc). lia. }
  rewrite words_Add_nonempty by done.
  assert (0 ≤ count_of (words z) s ≤ n) as Hc.
  { unfold count_of. destruct (words z !! s) as [c'|] eqn:Hc; simpl; [|lia].
    specialize (Hpos s c' Hc). specialize (Hn s c' Hc). lia. }
  rewrite wrap64_in_range by (unfold min_int64, max_int64 in *; lia).
  rewrite lookup_insert. case_decide.
  - intros [= <-]. lia.
  - intros Ht. specialize (Hn t c Ht). lia.
Qed.

Lemma count_of_le (m : gmap string Z) s n :
  (∀ t c, m !! t = Some c → c ≤ n) → 0 ≤ n → count_of m s ≤ n.
Proof.
  intros Hn Hn0. unfold count_of. destruct (m !! s) as [c|] eqn:Hc; simpl; [|done].
  by eapply Hn.
Qed.

Lemma AddEach_table_inv_bounded ts : ∀ z n,
  table_inv (words z) →
  (∀ t c, words z !! t = Some c → c ≤ n) → 0 ≤ n → n + Z.of_nat (length ts) ≤ max_int64 →
  table_inv (words (AddEach z ts).1) ∧ never_shrinks (words z) (words (AddEach z ts).1).
Proof.
  induction ts as [|w ts IH]; intros z n Hinv Hn Hn0 Hlen.
  { split; [done|apply never_shrinks_refl]. }
  cbn [length] in Hlen. cbn [AddEach].
  destruct (Add_table_inv z w Hinv) as [Hinv' Hle].
  { pose proof (count_of_le (words z) w n Hn Hn0). lia. }
  pose proof (Add_count_bound z w n Hinv Hn) as Hn'.
  destruct (Add z w) as [z' [e|]]; cbn [fst] in *; [done|].
  destruct (IH z' (n + 1) Hinv') as [Hinv'' Hle']; [apply Hn'; lia|lia..|].
  split; [done|]. by eapply never_shrinks_trans.
Qed.

(** C4, as the code has it: the table of a [Zipf] made by [New] has the
    predicate (counts at least 1, no empty key); an [Add] call, failing or
    not, keeps it and removes no key and decreases no count whenever the
    count stored for the added term is below the largest [int64]; so the
    predicate holds, and nothing has shrunk, after any run of at most
    [2^63 - 1] calls on a new [Zipf]. *)
Theorem table_inv_kept_below_max :
  (∀ dir lim syms (output : W) z,
     New dir lim syms output = (Some z, None) → table_inv (words z))
  ∧
  (∀ z s, table_inv (words z) → count_of (words z) s < max_int64 →
     table_inv (words (Add z s).1) ∧ never_shrinks (words z) (words (Add z s).1))
  ∧
  (∀ dir lim syms (output : W) z ts,
     New dir lim syms output = (Some z, None) → Z.of_nat (length ts) ≤ max_int64 →
     table_inv (words (AddEach z ts).1) ∧ never_shrinks (words z) (words (AddEach z ts).1)).
Proof.
  split; [|split].
  - intros dir lim syms output z HNew. unfold New in HNew.
    destruct (String.eqb dir ""); [done|]. injection HNew as <-. apply table_inv_empty.
  - intros z s Hinv Hc. by apply Add_table_inv.
  - intros dir lim syms output z ts HNew Hlen. unfold New in HNew.
    destruct (String.eqb dir ""); [done|]. injection HNew as <-.
    apply (AddEach_table_inv_bounded ts _ 0); cbn [words]; [apply table_inv_empty| |lia|lia].
    intros t c Hc. by rewrite lookup_empty in Hc.
Qed.

End AggregatorFacts.

(** [z_new] is what [New] makes. *)
Lemma z_new_New {W : Type} (output : W) : New "dir" 10 false output = (Some (z_new output), None).
Proof. reflexivity. Qed.

(** At the largest [int64] the call returns nil and the stored count wraps
    around to the smallest one: it is not one more than before. *)
Lemma Add_wraps_at_max :
  (Add z_full "a").2 = None
  ∧ words z_full !! "a" = Some max_int64
  ∧ words (Add z_full "a").1 !! "a" = Some min_int64
  ∧ min_int64 < max_int64 + 1.
Proof. repeat split. Qed.

(** A new [Zipf] on which [Add("a")] is called [2^63] times holds the
    smallest [int64] as the count of ["a"]. *)
Lemma AddEach_wraps_after_2_63_calls :
  words (AddEach (z_new tt) (replicate (S (Z.to_nat max_int64)) "a")).1 !! "a"
  = Some min_int64.
Proof.
  rewrite AddEach_replicate by done.
  rewrite Nat2Z.inj_succ, Z2Nat.id by (unfold max_int64; lia).
  reflexivity.
Qed.

(** On a new [Zipf]: one call stores 1, and after [Add] of ["a"], ["b"], ["a"]
    the count of ["a"] is 2. *)
Lemma Add_counts_calls_witness :
  Add (z_new tt) "a" = (set_words (z_new tt) {[ "a" := 1 ]}, None)
  ∧ count_of (words (AddEach (z_new tt) ["a"; "b"; "a"]).1) "a" = 2.
Proof.
  split.
  - apply (proj1 (@Add_counts_calls unit) (z_new tt) "a"); [done|].
    vm_compute. split; [discriminate|reflexivity].
  - apply (proj2 (@Add_counts_calls unit) "dir" 10 false tt (z_new tt) ["a"; "b"; "a"] "a").
    + reflexivity.
    + compute_done.
    + vm_compute. discriminate.
Defined.

(** The table of [z_full] has the predicate; after [Add("a")] the count of
    ["a"] is negative and smaller than it was. *)
Lemma table_inv_lost_at_max :
  table_inv (words z_full)
  ∧ ¬ table_inv (words (Add z_full "a").1)
  ∧ ¬ never_shrinks (words z_full) (words (Add z_full "a").1).
Proof.
  assert (words (Add z_full "a").1 !! "a" = Some min_int64) as Hafter by reflexivity.
  split; [|split].
  - split; [|done]. intros t c Hc. cbn [words z_full] in Hc.
    apply lookup_singleton_Some in Hc as [_ <-]. unfold max_int64. lia.
  - intros [Hpos _]. specialize (Hpos "a" _ Hafter). unfold min_int64 in Hpos. lia.
  - intros Hle. destruct (Hle "a" max_int64) as (c' & Hc' & Hle'); [done|].
    rewrite Hafter in Hc'. injection Hc' as <-. unfold min_int64, max_int64 in Hle'. lia.
Qed.

(** On a new [Zipf]: the predicate holds at the start, after one call, and
    after three. *)
Lemma table_inv_kept_below_max_witness :
  table_inv (words (z_new tt))
  ∧ (table_inv (words (Add (z_new tt) "a").1)
     ∧ never_shrinks (words (z_new tt)) (words (Add (z_new tt) "a").1))
  ∧ (table_inv (words (AddEach (z_new tt) ["a"; "b"; "a"]).1)
     ∧ never_shrinks (words (z_new tt)) (words (AddEach (z_new tt) ["a"; "b"; "a"]).1)).
Proof.
  split; [|split].
  - apply (proj1 (@table_inv_kept_below_max unit) "dir" 10 false tt (z_new tt)).
    reflexivity.
  - apply (proj1 (proj2 (@table_inv_kept_below_max unit)) (z_new tt) "a").
    + apply table_inv_empty.
    + vm_compute. reflexivity.
  - apply (proj2 (proj2 (@table_inv_kept_below_max unit)) "dir" 10 false tt (z_new tt)).
    + reflexivity.
    + vm_compute. discriminate.
Defined.

(** ** Goroutines *)

Section GoroutineFacts.

Context {W : Type}.
Implicit Types (z : Zipf W) (s t : string).

(** The statements of [step_Add], run by one goroutine with nobody in
    between, are the call [Add]: three steps for the empty string, six
    otherwise. *)
Lemma step_Add_alone z s :
  run_schedule (z, [go_Add s]) (replicate (if String.eqb s "" then 3 else 6)%nat 0%nat)
  = Some ((Add z s).1, [mkGoroutine s (Returned (Add z s).2)]).
Proof.
  destruct z as [p l o sy m cs co [n]].
  unfold Add. destruct (String.eqb s "") eqn:Hs.
  - cbn. by rewrite Hs.
  - cbn. rewrite Hs. cbn. unfold index2.
    destruct (m !! s) as [c|] eqn:Hm; cbn; unfold index2; rewrite ?Hm; reflexivity.
Qed.

End GoroutineFacts.

(** C1 fails on the code: with the two goroutines taking turns, both hold the
    read lock at once (after the first two steps the mutex counts two
    readers), both read that ["a"] is absent, both store 1, and both return
    nil: two successful calls, and a final count of 1. Run one after the
    other, the same two calls leave 2. *)
Theorem Add_loses_update_under_RLock :
  (mu <$> (fst <$> run_schedule two_adds [0; 1]%nat)) = Some (mkRWMutex 2)
  ∧ (snd <$> run_schedule two_adds alternate)
    = Some [mkGoroutine "a" (Returned None); mkGoroutine "a" (Returned None)]
  ∧ (successful_calls "a" <$> (snd <$> run_schedule two_adds alternate)) = Some 2%nat
  ∧ ((λ c, words c.1 !! "a") <$> run_schedule two_adds alternate) = Some (Some 1)
  ∧ words (AddEach (z_new tt) ["a"; "a"]).1 !! "a" = Some 2.
Proof. repeat split. Qed.

(** ** The report *)

(** [%s %d\n]: the word, a space, the count in decimal with its sign, a
    line feed. *)
Lemma format_Term_examples :
  format_Term (mkTerm "the" 3) = "the 3" +:+ newline
  ∧ format_Term (mkTerm "cat" 120) = "cat 120" +:+ newline
  ∧ format_Term (mkTerm "a" min_int64) = "a -9223372036854775808" +:+ newline.
Proof. repeat split. Qed.

Lemma ByCountAsc_Less_StrictWeak : StrictWeak ByCountAsc_Less.
Proof.
  split; unfold ByCountAsc_Less.
  - intros a b Hab. apply bool_decide_eq_true in Hab. apply bool_decide_eq_false. lia.
  - intros a b c Hba Hcb. apply bool_decide_eq_false in Hba, Hcb.
    apply bool_decide_eq_false. lia.
Qed.

Lemma StronglySorted_weaken {A : Type} (R1 R2 : relation A) (l : list A) :
  (∀ a b, R1 a b → R2 a b) → StronglySorted R1 l → StronglySorted R2 l.
Proof.
  intros HR. induction 1 as [|a l Hl IH Ha]; constructor; [done|].
  eapply Forall_impl; [exact Ha|]. intros b. apply HR.
Qed.

Section ReporterFacts.

Context {W : Type} `{!Writer W} `{!Sorter}.
Implicit Types (z : Zipf W) (iter : list (string * Z)) (coll : list Term).

(** The loop only appends to the collection it starts from. *)
Lemma range_words_app lim i coll iter :
  range_words lim i coll iter = coll ++ range_words lim i [] iter.
Proof.
  revert i coll. induction iter as [|[k c] rest IH]; intros i coll; cbn [range_words].
  - by rewrite app_nil_r.
  - case_bool_decide; [apply IH|].
    rewrite IH, (IH _ ([] ++ _)). by rewrite app_nil_l, app_assoc.
Qed.

(** What it appends are entries the range yields. *)
Lemma range_words_elem lim i iter x :
  x ∈ range_words lim i [] iter → ∃ k c, (k, c) ∈ iter ∧ x = mkTerm k c.
Proof.
  revert i. induction iter as [|[k c] rest IH]; intros i; cbn [range_words].
  - by intros ?%elem_of_nil.
  - case_bool_decide.
    + intros (k' & c' & Hin & ->)%IH. exists k', c'. split; [by right|done].
    + rewrite range_words_app. intros [Hx|Hx]%elem_of_app.
      * apply list_elem_of_singleton in Hx as ->. exists k, c. split; [by left|done].
      * apply IH in Hx as (k' & c' & Hin & ->). exists k', c'. split; [by right|done].
Qed.

(** As long as the counter [i] stays an [int], the loop appends the first
    [lim - i] entries the range yields, and skips the rest. *)
Lemma range_words_take lim i iter :
  0 ≤ i → i + Z.of_nat (length iter) ≤ max_int64 →
  range_words lim i [] iter = (λ e, mkTerm e.1 e.2) <$> take (Z.to_nat (lim - i)) iter.
Proof.
  revert i. induction iter as [|[k c] rest IH]; intros i Hi Hlen; cbn [range_words].
  { by rewrite take_nil. }
  cbn [length] in Hlen.
  rewrite wrap64_in_range by (unfold min_int64, max_int64 in *; lia).
  case_bool_decide as Hlim.
  - rewrite IH by lia. by replace (Z.to_nat (lim - i)) with 0%nat by lia;
      replace (Z.to_nat (lim - (i + 1))) with 0%nat by lia.
  - rewrite range_words_app, IH by lia.
    replace (Z.to_nat (lim - i)) with (S (Z.to_nat (lim - (i + 1)))) by lia.
    done.
Qed.

Lemma range_words_length lim iter :
  0 ≤ lim → Z.of_nat (length iter) ≤ max_int64 →
  Z.of_nat (length (range_words lim 0 [] iter)) = Z.min lim (Z.of_nat (length iter)).
Proof.
  intros Hlim Hlen. rewrite range_words_take by lia.
  rewrite length_fmap, length_take. lia.
Qed.

(** The print loop makes one [Write] call per entry, in order, whatever the
    earlier calls returned. *)
Lemma print_each_write_all (w : W) coll :
  print_each w coll = write_all w (format_Term <$> coll).
Proof.
  revert w. induction coll as [|x coll IH]; intros w; [done|].
  cbn [print_each fmap list_fmap]. unfold write_all, Fprintf_Term. cbn [fold_left].
  destruct (Write w (format_Term x)) as [w' r]. apply IH.
Qed.

(** [Report], statement by statement. *)
Lemma Report_eq z iter :
  let coll := sort_Sort ByCountAsc_Less (collection z ++ range_words (limit z) 0 [] iter) in
  Report z iter
  = (set_out (set_collection z coll) (write_all (out z) (format_Term <$> coll)), None).
Proof.
  destruct z as [p l o sy m cs co [n]]. unfold Report. cbn.
  rewrite print_each_write_all, range_words_app. done.
Qed.

Lemma Report_lines_eq z iter :
  Report_lines z iter
  = format_Term <$> sort_Sort ByCountAsc_Less (collection z ++ range_words (limit z) 0 [] iter).
Proof. unfold Report_lines. by rewrite Report_eq. Qed.

Lemma Report_out z iter :
  out (Report z iter).1 = write_all (out z) (Report_lines z iter).
Proof. rewrite Report_lines_eq, Report_eq. done. Qed.

Lemma Report_collection z iter :
  collection (Report z iter).1 ≡ₚ collection z ++ range_words (limit z) 0 [] iter.
Proof. rewrite Report_eq. cbn. apply sort_Sort_perm. Qed.

Lemma range_order_length (m : gmap string Z) iter :
  range_order m iter → length iter = size m.
Proof. intros Hperm. by rewrite Hperm, length_map_to_list. Qed.

Lemma range_order_elem (m : gmap string Z) iter k c :
  range_order m iter → (k, c) ∈ iter → m !! k = Some c.
Proof. intros Hperm Hin. rewrite Hperm in Hin. by apply elem_of_map_to_list. Qed.

(** C5, as the code has it: [Report] makes one [Write] call per line, and
    for a limit of at least 0 (and a table whose size is an [int]) the number
    of lines is the length [z.collection] had before the call plus the
    smaller of the limit and the number of terms of the table. When
    [z.collection] is empty before the call, as [New] leaves it, that is
    the smaller of the limit and the number of terms: no line for a limit of
    0, none for an empty table. *)
Theorem Report_line_count z iter :
  range_order (words z) iter →
  Z.of_nat (size (words z)) ≤ max_int64 →
  0 ≤ limit z →
  out (Report z iter).1 = write_all (out z) (Report_lines z iter)
  ∧ Z.of_nat (length (Report_lines z iter))
    = Z.of_nat (length (collection z)) + Z.min (limit z) (Z.of_nat (size (words z)))
  ∧ (collection z = [] →
     Z.of_nat (length (Report_lines z iter)) = Z.min (limit z) (Z.of_nat (size (words z)))
     ∧ (limit z = 0 → Report_lines z iter = [])
     ∧ (words z = ∅ → Report_lines z iter = [])).
Proof.
  intros Hiter Hsize Hlim.
  apply range_order_length in Hiter as Hlen.
  assert (Z.of_nat (length (Report_lines z iter))
          = Z.of_nat (length (collection z)) + Z.min (limit z) (Z.of_nat (size (words z))))
    as Hcount.
  { rewrite Report_lines_eq, length_fmap, sort_Sort_perm, length_app, Nat2Z.inj_add.
    rewrite range_words_length by lia. by rewrite Hlen. }
  split; [apply Report_out|]. split; [done|].
  intros Hnil. rewrite Hnil in Hcount. cbn [length] in Hcount.
  split; [lia|]. split.
  - intros H0. apply length_zero_iff_nil. lia.
  - intros Hempty. apply length_zero_iff_nil.
    rewrite Hempty, map_size_empty in Hcount. lia.
Qed.

(** C6, as the code has it: the lines [Report] writes are the entries of
    [z.collection] after the call, each formatted as its word, a space, its
    count in decimal and a newline; these entries are in non-decreasing
    order of count; and each is an entry [z.collection] held before the call
    or a (term, count) entry of the table. When [z.collection] is empty
    before the call, each is an entry of the table. *)
Theorem Report_lines_sorted_entries z iter :
  range_order (words z) iter →
  out (Report z iter).1 = write_all (out z) (Report_lines z iter)
  ∧ Report_lines z iter
    = (λ x, Word x +:+ " " +:+ pretty (Count x) +:+ newline) <$> collection (Report z iter).1
  ∧ StronglySorted (λ a b, Count a ≤ Count b) (collection (Report z iter).1)
  ∧ (∀ x, x ∈ collection (Report z iter).1 →
       x ∈ collection z ∨ words z !! Word x = Some (Count x))
  ∧ (collection z = [] →
     ∀ x, x ∈ collection (Report z iter).1 → words z !! Word x = Some (Count x)).
Proof.
  intros Hiter.
  assert (∀ x, x ∈ collection (Report z iter).1 →
            x ∈ collection z ∨ words z !! Word x = Some (Count x)) as Hentries.
  { intros x. rewrite Report_collection. intros [Hx|Hx]%elem_of_app; [by left|right].
    apply range_words_elem in Hx as (k & c & Hin & ->). cbn.
    by eapply range_order_elem. }
  split; [apply Report_out|]. split; [done|]. split; [|split; [done|]].
  - rewrite Report_eq. cbn.
    eapply StronglySorted_weaken; [|apply sort_Sort_sorted, ByCountAsc_Less_StrictWeak].
    intros a b Hba. unfold ByCountAsc_Less in Hba. apply bool_decide_eq_false in Hba. lia.
  - intros Hnil x Hx. destruct (Hentries x Hx) as [Hin|]; [|done].
    rewrite Hnil in Hin. by apply elem_of_nil in Hin.
Qed.

(** C7, as the code has it: [Report] leaves the path, the limit, the symbols
    flag, the table, [counts] and the mutex as they were; it keeps state in
    [z.collection], which after the call holds what it held before together
    with the entries selected by this call; the [Write] calls are the lines
    of that collection. So a second call writes, in sorted order, the lines
    of the first call again and the lines of the entries it selects
    itself. *)
Theorem Report_keeps_collection z iter :
  path (Report z iter).1 = path z
  ∧ limit (Report z iter).1 = limit z
  ∧ symbols (Report z iter).1 = symbols z
  ∧ words (Report z iter).1 = words z
  ∧ counts (Report z iter).1 = counts z
  ∧ mu (Report z iter).1 = mu z
  ∧ collection (Report z iter).1 ≡ₚ collection z ++ range_words (limit z) 0 [] iter
  ∧ out (Report z iter).1 = write_all (out z) (format_Term <$> collection (Report z iter).1)
  ∧ (∀ iter2,
       Report_lines (Report z iter).1 iter2
       ≡ₚ Report_lines z iter ++ (format_Term <$> range_words (limit z) 0 [] iter2)).
Proof.
  pose proof (Report_eq z iter) as Heq. cbv zeta in Heq.
  split_and!; try (by rewrite Heq).
  - apply Report_collection.
  - intros iter2. rewrite (Report_lines_eq (Report z iter).1), sort_Sort_perm, fmap_app.
    rewrite (Report_lines_eq z iter). by rewrite Heq.
Qed.

End ReporterFacts.

(** The recording writer holds, after the [Write] calls, what it held before
    and then the lines. *)
Lemma write_all_recorder (w ls : list string) : @write_all _ recorder w ls = w ++ ls.
Proof.
  revert w. induction ls as [|l ls IH]; intros w; cbn.
  - by rewrite app_nil_r.
  - unfold write_all in IH. rewrite IH. by rewrite <- app_assoc.
Qed.

(** The second [Report] on a table of one term, with limit 10, writes two
    lines. *)
Lemma Report_twice_two_lines :
  range_order (words z_a_reported) [("a", 1)]
  ∧ limit z_a_reported = 10
  ∧ size (words z_a_reported) = 1%nat
  ∧ @Report_lines _ recorder merge_Sorter z_a_reported [("a", 1)]
    = ["a 1" +:+ newline; "a 1" +:+ newline].
Proof. split; [by vm_compute|repeat split]. Qed.

(** The first [Report] on a table of one term, with limit 10, writes one
    line. *)
Lemma Report_line_count_witness :
  Z.of_nat (length (@Report_lines _ recorder merge_Sorter z_a [("a", 1)])) = Z.min 10 1.
Proof.
  refine (proj1 (proj2 (proj2
    (@Report_line_count _ recorder merge_Sorter z_a [("a", 1)] _ _ _)) _)).
  - by vm_compute.
  - vm_compute. discriminate.
  - vm_compute. discriminate.
  - reflexivity.
Defined.

(** After [Add("a")], [Report], [Add("a")], the next [Report] writes the
    line ["a 1"], and the table holds ["a"] with count 2. *)
Lemma Report_writes_stale_entry :
  range_order (words z_a_again) [("a", 2)]
  ∧ words z_a_again !! "a" = Some 2
  ∧ @Report_lines _ recorder merge_Sorter z_a_again [("a", 2)]
    = ["a 1" +:+ newline; "a 2" +:+ newline].
Proof. split; [by vm_compute|repeat split]. Qed.

(** The first [Report] after [Add("a")]: one line, for the entry of the
    table. *)
Lemma Report_lines_sorted_entries_witness :
  @Report_lines _ recorder merge_Sorter z_a [("a", 1)] = ["a 1" +:+ newline]
  ∧ StronglySorted (λ a b, Count a ≤ Count b)
      (collection (@Report _ recorder merge_Sorter z_a [("a", 1)]).1)
  ∧ (∀ x, x ∈ collection (@Report _ recorder merge_Sorter z_a [("a", 1)]).1 →
          words z_a !! Word x = Some (Count x)).
Proof.
  assert (range_order (words z_a) [("a", 1)]) as Hiter by (by vm_compute).
  split; [reflexivity|]. split.
  - exact (proj1 (proj2 (proj2
      (@Report_lines_sorted_entries _ recorder merge_Sorter z_a [("a", 1)] Hiter)))).
  - exact (proj2 (proj2 (proj2 (proj2
      (@Report_lines_sorted_entries _ recorder merge_Sorter z_a [("a", 1)] Hiter)))) eq_refl).
Defined.

(** Two [Report] calls in a row, on the same table and limit: the first
    writes one line, the second two, and [z.collection] has changed. *)
Lemma Report_twice_differs :
  words z_a_reported = words z_a
  ∧ limit z_a_reported = limit z_a
  ∧ collection z_a = []
  ∧ collection z_a_reported = [mkTerm "a" 1]
  ∧ @Report_lines _ recorder merge_Sorter z_a [("a", 1)] = ["a 1" +:+ newline]
  ∧ @Report_lines _ recorder merge_Sorter z_a_reported [("a", 1)]
    = ["a 1" +:+ newline; "a 1" +:+ newline].
Proof. repeat split. Qed.

(** A writer that fails every time: [Report] on a table of one term calls it
    and returns nil. *)
Lemma Report_closed_pipe :
  (@Report _ closed_pipe_Writer merge_Sorter (Add (z_new ClosedPipe) "a").1 [("a", 1)]).2 = None
  ∧ (closed_pipe_Writer ClosedPipe ("a 1" +:+ newline)).2.2
    = Some (os_error "write on closed pipe").
Proof. repeat split. Qed.

(** ** The walk *)

Section TraverserFacts.

Context {W : Type}.
Variable SplitWord : string → list string * option error.
Variable SplitSymbol : string → list string * option error.
Variable os_Open : string → File.
Variable tree : string → list visit.
Implicit Types (z : Zipf W) (line : string) (ws : list string).

Lemma symbols_Add z s : symbols (Add z s).1 = symbols z.
Proof.
  destruct (decide (s = "")) as [->|Hs]; [by rewrite Add_empty|].
  by rewrite Add_nonempty.
Qed.

Lemma symbols_AddEach z ws : symbols (AddEach z ws).1 = symbols z.
Proof.
  revert z. induction ws as [|w ws IH]; intros z; [done|].
  cbn [AddEach]. pose proof (symbols_Add z w) as Hw.
  destruct (Add z w) as [z' [e|]]; [done|]. by rewrite IH.
Qed.

Lemma AddEach_app z ws1 ws2 :
  AddEach z (ws1 ++ ws2)
  = match AddEach z ws1 with
    | (z', Some e) => (z', Some e)
    | (z', None) => AddEach z' ws2
    end.
Proof.
  revert z. induction ws1 as [|w ws1 IH]; intros z; [done|].
  cbn [app AddEach]. destruct (Add z w) as [z' [e|]]; [done|apply IH].
Qed.

(** A run of calls stops at the first empty token: the tokens before it are
    counted, the error is [Add]'s, and the tokens after it are not read. *)
Lemma AddEach_empty_token z ws1 ws2 :
  "" ∉ ws1 →
  AddEach z (ws1 ++ "" :: ws2) = ((AddEach z ws1).1, Some (errors_New "empty word")).
Proof.
  intros Hws1. rewrite AddEach_app.
  pose proof (AddEach_ok z ws1 Hws1) as Hok.
  destruct (AddEach z ws1) as [z' r]. cbn in Hok. subst r.
  cbn [AddEach]. by rewrite Add_empty.
Qed.

(** What [line_body] does to a line is to add its tokens. *)
Lemma line_body_tokens z line :
  line_body SplitWord SplitSymbol z line
  = AddEach z (line_tokens SplitWord SplitSymbol (symbols z) line).
Proof.
  unfold line_body, line_tokens. case_bool_decide; [done|].
  destruct (SplitWord line) as [ws [e|]]; [done|].
  pose proof (symbols_AddEach z ws) as Hsym.
  destruct (symbols z) eqn:Hz.
  - destruct (SplitSymbol line) as [ss [e|]].
    + destruct (AddEach z ws) as [z' [e'|]]; [done|]. cbn in Hsym. by rewrite Hsym.
    + rewrite AddEach_app.
      destruct (AddEach z ws) as [z' [e'|]]; [done|]. cbn in Hsym. by rewrite Hsym.
  - destruct (AddEach z ws) as [z' [e'|]]; [done|]. cbn in Hsym. by rewrite Hsym.
Qed.

Lemma each_line_app z ls1 ls2 :
  each_line SplitWord SplitSymbol z (ls1 ++ ls2)
  = match each_line SplitWord SplitSymbol z ls1 with
    | (z', Some e) => (z', Some e)
    | (z', None) => each_line SplitWord SplitSymbol z' ls2
    end.
Proof.
  revert z. induction ls1 as [|l ls1 IH]; intros z; [done|].
  cbn [app each_line].
  destruct (line_body SplitWord SplitSymbol z l) as [z' [e|]]; [done|apply IH].
Qed.

Lemma filepath_Walk_app z vs1 vs2 :
  filepath_Walk SplitWord SplitSymbol os_Open (vs1 ++ vs2) z
  = match filepath_Walk SplitWord SplitSymbol os_Open vs1 z with
    | (z', Some e) => (z', Some e)
    | (z', None) => filepath_Walk SplitWord SplitSymbol os_Open vs2 z'
    end.
Proof.
  revert z. induction vs1 as [|v vs1 IH]; intros z; [done|].
  cbn [app filepath_Walk].
  destruct (walk_fn _ _ _ _ _ _ _) as [z' [e|]]; [done|apply IH].
Qed.

(** C8, as the code has it: when [SplitWord] fails on a line, the body of
    the loop leaves the [Zipf] as it is and goes on to the next line without
    an error; the result does not depend on [SplitSymbol], whose tokens for
    that line are not added, whether symbols are counted or not. *)
Theorem line_skipped_when_SplitWord_fails z line rest :
  is_Some (SplitWord line).2 →
  line_body SplitWord SplitSymbol z line = (z, None)
  ∧ line_tokens SplitWord SplitSymbol (symbols z) line = []
  ∧ each_line SplitWord SplitSymbol z (line :: rest)
    = each_line SplitWord SplitSymbol z rest.
Proof.
  intros [e He].
  assert (line_body SplitWord SplitSymbol z line = (z, None)) as Hbody.
  { unfold line_body. case_bool_decide; [done|].
    destruct (SplitWord line) as [ws r]. cbn in He. by subst r. }
  split; [done|]. split.
  - unfold line_tokens. case_bool_decide; [done|].
    destruct (SplitWord line) as [ws r]. cbn in He. by subst r.
  - cbn [each_line]. by rewrite Hbody.
Qed.

(** A run of calls that returns an error has met an empty token: the error
    is [Add]'s, and the [Zipf] is the one the tokens before it lead to. *)
Lemma AddEach_error z ws z' e :
  AddEach z ws = (z', Some e) →
  e = errors_New "empty word"
  ∧ ∃ ws1 ws2, ws = ws1 ++ "" :: ws2 ∧ ("" ∉ ws1) ∧ z' = (AddEach z ws1).1.
Proof.
  revert z. induction ws as [|w ws IH]; intros z Hrun; [done|].
  destruct (decide (w = "")) as [->|Hw].
  - cbn [AddEach] in Hrun. rewrite Add_empty in Hrun. injection Hrun as <- <-.
    split; [done|]. exists [], ws. split; [done|]. split; [apply not_elem_of_nil|done].
  - rewrite AddEach_cons_nonempty in Hrun by done.
    apply IH in Hrun as (He & ws1 & ws2 & -> & Hws1 & ->).
    split; [done|]. exists (w :: ws1), ws2. split; [done|]. split.
    + apply not_elem_of_cons. split; [congruence|done].
    + by rewrite AddEach_cons_nonempty.
Qed.

(** The lines [readLines] returns pass the empty-line test of the loop. *)
Lemma readLines_elem_nonempty (p : string) lines line :
  readLines os_Open p = (lines, None) → line ∈ lines →
  bool_decide (String.length line < 1)%nat = false.
Proof.
  unfold readLines. intros Hread Hin.
  destruct (open_err (os_Open p)); [done|].
  destruct (close_err (os_Open p)); [done|].
  injection Hread as <- _. apply list_elem_of_filter in Hin as [Hne _].
  by apply bool_decide_eq_false.
Qed.

(** C9: the walk reaches a file ([pre] is what [filepath.Walk] visits
    before it, without an error), reads its lines, and comes to a line
    (after the lines [ls1], processed without an error) that [SplitWord]
    splits, and a token of that line is the empty string: either a word
    (after the words [toks1]), or, when symbols are counted and no word is
    empty, a symbol of the line (after the words and the symbols before it,
    together [toks1]). Then [Add] fails on that token and [Walk] returns
    [Add]'s error at once, and the [Zipf] is the one reached when [Add]
    failed, with the tokens [toks1] counted: the tokens after the empty one,
    the lines [ls2] and the visits [post] are not processed. *)
Theorem Walk_aborts_on_empty_token z dir pre v post ls1 line ls2 z1 z2 ws toks1 :
  tree dir = pre ++ v :: post →
  filepath_Walk SplitWord SplitSymbol os_Open pre z = (z1, None) →
  (match v_info v with Some i => IsDir i | None => false end) = false →
  readLines os_Open (v_name v) = (ls1 ++ line :: ls2, None) →
  each_line SplitWord SplitSymbol z1 ls1 = (z2, None) →
  SplitWord line = (ws, None) →
  ((∃ ws2, ws = toks1 ++ "" :: ws2 ∧ ("" ∉ toks1))
   ∨ (∃ ss1 ss2, ("" ∉ ws) ∧ symbols z2 = true
        ∧ SplitSymbol line = (ss1 ++ "" :: ss2, None) ∧ ("" ∉ ss1)
        ∧ toks1 = ws ++ ss1)) →
  Walk SplitWord SplitSymbol os_Open tree z dir
  = ((AddEach z2 toks1).1, Some (errors_New "empty word")).
Proof.
  intros Htree Hpre Hfile Hread Hls1 Hws Htoken.
  assert (line_body SplitWord SplitSymbol z2 line
          = ((AddEach z2 toks1).1, Some (errors_New "empty word"))) as Hline.
  { unfold line_body.
    rewrite (readLines_elem_nonempty (v_name v) (ls1 ++ line :: ls2) line Hread)
      by (apply elem_of_app; right; by left).
    rewrite Hws.
    destruct Htoken as [(ws2 & -> & Htoks1)|(ss1 & ss2 & Hwsne & Hsym & Hss & Hss1 & ->)].
    - by rewrite AddEach_empty_token.
    - pose proof (AddEach_ok z2 ws Hwsne) as Hok.
      pose proof (symbols_AddEach z2 ws) as Hsym'.
      rewrite (AddEach_app z2 ws ss1).
      destruct (AddEach z2 ws) as [z' r]. cbn in Hok, Hsym'. subst r.
      rewrite Hsym', Hsym, Hss. by rewrite AddEach_empty_token. }
  unfold Walk. rewrite Htree, filepath_Walk_app, Hpre.
  cbn [filepath_Walk]. unfold walk_fn. rewrite Hfile, Hread.
  rewrite each_line_app, Hls1. cbn [each_line]. by rewrite Hline.
Qed.

End TraverserFacts.

Section RunFacts.

Context {W : Type} `{!Writer W} `{!Sorter}.
Variable SplitWord : string → list string * option error.
Variable SplitSymbol : string → list string * option error.
Variable os_Open : string → File.
Variable tree : string → list visit.
Implicit Types (z : Zipf W) (iter : list (string * Z)).

(** [Run] fails when the walk fails, and only then. *)
Lemma Run_error z (order : gmap string Z → list (string * Z)) :
  (Run SplitWord SplitSymbol os_Open tree z order).2
  = (Walk SplitWord SplitSymbol os_Open tree z (path z)).2.
Proof.
  unfold Run. by destruct (Walk SplitWord SplitSymbol os_Open tree z (path z)) as [z' [e|]].
Qed.

(** C10: [Report] returns nil for every [Zipf], every order of the range and
    every writer, also one whose [Write] reports an error each time; the
    loop still makes the [Write] call of every line, whatever the calls
    before it returned; and the error [Run] returns is the one of the walk,
    nil when the walk returns nil. *)
Theorem Report_returns_nil z iter (order : gmap string Z → list (string * Z)) :
  (Report z iter).2 = None
  ∧ out (Report z iter).1 = write_all (out z) (Report_lines z iter)
  ∧ (Run SplitWord SplitSymbol os_Open tree z order).2
    = (Walk SplitWord SplitSymbol os_Open tree z (path z)).2.
Proof. split; [done|]. split; [apply Report_out|apply Run_error]. Qed.

End RunFacts.

(** Symbols are counted, [SplitWord] fails on the line ["??"] and
    [SplitSymbol] has a token for it: the body of the loop adds nothing, and
    neither does the whole walk over files that hold this line, though adding
    the symbol tokens would have counted ["?"]. *)
Lemma symbols_skipped_with_words :
  symbols z_symbols = true
  ∧ demo_SplitWord "??" = ([], Some (errors_New "no words"))
  ∧ demo_SplitSymbol "??" = (["?"], None)
  ∧ line_body demo_SplitWord demo_SplitSymbol z_symbols "??" = (z_symbols, None)
  ∧ Walk demo_SplitWord demo_SplitSymbol (demo_Open ["??"]) demo_tree z_symbols "dir"
    = (z_symbols, None)
  ∧ words z_symbols !! "?" = None
  ∧ words (AddEach z_symbols ["?"]).1 !! "?" = Some 1.
Proof. repeat split. Qed.

(** The line ["??"], on which the example tokenizer fails, is skipped. *)
Lemma line_skipped_when_SplitWord_fails_witness :
  line_body demo_SplitWord demo_SplitSymbol z_symbols "??" = (z_symbols, None)
  ∧ line_tokens demo_SplitWord demo_SplitSymbol (symbols z_symbols) "??" = []
  ∧ each_line demo_SplitWord demo_SplitSymbol z_symbols ["??"; "one"]
    = each_line demo_SplitWord demo_SplitSymbol z_symbols ["one"].
Proof.
  apply (@line_skipped_when_SplitWord_fails unit demo_SplitWord demo_SplitSymbol
           z_symbols "??" ["one"]).
  vm_compute. eauto.
Defined.

(** Two walks of the example directory. In the first the second word of
    the line ["bad"] is empty: ["one"] and ["x"] are counted, and nothing
    after. In the second symbols are counted and the second symbol of the
    first line is empty: the word ["one"] and the symbol ["!"] are counted,
    and nothing after. Both return the error of [Add]. *)
Lemma Walk_aborts_on_empty_token_witness :
  Walk demo_SplitWord demo_SplitSymbol (demo_Open ["one"; ""; "bad"; "two"]) demo_tree
       (z_new tt) "dir"
  = ((AddEach (Add (z_new tt) "one").1 ["x"]).1, Some (errors_New "empty word"))
  ∧ Walk space_SplitWord bang_SplitSymbol (demo_Open ["one"; "two"]) demo_tree
         z_symbols "dir"
    = ((AddEach z_symbols ["one"; "!"]).1, Some (errors_New "empty word")).
Proof.
  split.
  - refine (@Walk_aborts_on_empty_token unit demo_SplitWord demo_SplitSymbol
              (demo_Open ["one"; ""; "bad"; "two"]) demo_tree
              (z_new tt) "dir"
              [mkVisit "dir" (Some (mkFileInfo true)) None]
              (mkVisit "dir/f" (Some (mkFileInfo false)) None)
              [mkVisit "dir/g" (Some (mkFileInfo false)) None]
              ["one"] "bad" ["two"]
              (z_new tt) (Add (z_new tt) "one").1 ["x"; ""; "y"] ["x"]
              _ _ _ _ _ _ _); try (vm_compute; reflexivity).
    left. exists ["y"]. split; [reflexivity|compute_done].
  - refine (@Walk_aborts_on_empty_token unit space_SplitWord bang_SplitSymbol
              (demo_Open ["one"; "two"]) demo_tree
              z_symbols "dir"
              [mkVisit "dir" (Some (mkFileInfo true)) None]
              (mkVisit "dir/f" (Some (mkFileInfo false)) None)
              [mkVisit "dir/g" (Some (mkFileInfo false)) None]
              [] "one" ["two"]
              z_symbols z_symbols ["one"] ["one"; "!"]
              _ _ _ _ _ _ _); try (vm_compute; reflexivity).
    right. exists ["!"], []. split_and!; try reflexivity; compute_done.
Defined.

(** The end-to-end run of the example directory stops in the first file:
    ["one"] and ["x"] are counted once, ["y"] and ["two"] are not, and the
    second file is not read. *)
Lemma Walk_demo_table :
  words (Walk demo_SplitWord demo_SplitSymbol (demo_Open ["one"; ""; "bad"; "two"]) demo_tree
           (z_new tt) "dir").1
  = {[ "one" := 1; "x" := 1 ]}.
Proof. by vm_compute. Qed.

(** The run over a directory whose one file holds the lines ["the cat sat
    on the mat"] and ["the cat ran"], with limit 10 and no symbols: six
    lines, the four terms of count 1 first (here in the order the range
    [map_to_list] and the merge sort give them), then ["cat 2"], then
    ["the 3"]. *)
Lemma Run_cat_example :
  @Run (list string) space_SplitWord demo_SplitSymbol
       (demo_Open ["the cat sat on the mat"; "the cat ran"]) cat_tree
       recorder merge_Sorter (z_new []) map_to_list
  = (mkZipf "dir" 10
       ["ran 1" +:+ newline; "on 1" +:+ newline; "sat 1" +:+ newline; "mat 1" +:+ newline;
        "cat 2" +:+ newline; "the 3" +:+ newline]
       false
       {[ "the" := 3; "cat" := 2; "sat" := 1; "on" := 1; "mat" := 1; "ran" := 1 ]}
       ∅
       [mkTerm "ran" 1; mkTerm "on" 1; mkTerm "sat" 1; mkTerm "mat" 1;
        mkTerm "cat" 2; mkTerm "the" 3]
       (mkRWMutex 0),
     None).
Proof. by vm_compute. Qed.

(** * Further properties *)

(** ** More on [Add] *)

Section MoreAggregatorFacts.

Context {W : Type}.
Implicit Types (z : Zipf W) (s t : string) (ts : list string).

Lemma set_words_words z : set_words z (words z) = z.
Proof. by destruct z. Qed.

(** [Add] writes no field but the table. *)
Lemma Add_frame z s : (Add z s).1 = set_words z (words (Add z s).1).
Proof.
  destruct (decide (s = "")) as [->|Hs].
  - by rewrite Add_empty, set_words_words.
  - by rewrite Add_nonempty.
Qed.

Lemma AddEach_frame z ts : (AddEach z ts).1 = set_words z (words (AddEach z ts).1).
Proof.
  revert z. induction ts as [|w ts IH]; intros z; [by rewrite set_words_words|].
  cbn [AddEach]. pose proof (Add_frame z w) as Hw.
  destruct (Add z w) as [z' [e|]]; cbn [fst] in *; [done|].
  rewrite IH. by rewrite Hw at 1.
Qed.

(** The entry of [t] after a run of calls without an empty string, with no
    bound on the counts. *)
Lemma AddEach_lookup_wrap z ts t :
  "" ∉ ts →
  words (AddEach z ts).1 !! t
  = if decide (occurrences t ts = 0%nat) then words z !! t
    else Some (wrap64 (count_of (words z) t + Z.of_nat (occurrences t ts))).
Proof.
  revert z. induction ts as [|w ts IH]; intros z Hts; [done|].
  apply not_elem_of_cons in Hts as [Hw Hts].
  rewrite AddEach_cons_nonempty by done.
  destruct (decide (w = t)) as [->|Hne].
  - rewrite occurrences_cons_eq, decide_False by done.
    rewrite IH by done. cbn [words set_words]. rewrite count_of_insert_eq.
    case_decide as Hocc.
    + rewrite lookup_insert_eq, Hocc. done.
    + rewrite wrap64_add_l. do 2 f_equal. lia.
  - rewrite occurrences_cons_ne by done.
    rewrite IH by done. cbn [words set_words]. rewrite count_of_insert_ne by done.
    case_decide; [|done]. by rewrite lookup_insert_ne.
Qed.

(** X2: after any run of [Add] calls without an empty string, every call has
    returned nil, no field but the table has changed, a term that was not
    added has the entry it had (or none), and a term added [n] times, [n] at
    least 1, holds the count it had (0 when it was absent) plus [n], wrapped
    to 64 bits. *)
Theorem AddEach_counts_wrapped z ts t :
  "" ∉ ts →
  (AddEach z ts).2 = None
  ∧ (AddEach z ts).1 = set_words z (words (AddEach z ts).1)
  ∧ (occurrences t ts = 0%nat → words (AddEach z ts).1 !! t = words z !! t)
  ∧ (occurrences t ts ≠ 0%nat →
     words (AddEach z ts).1 !! t
     = Some (wrap64 (count_of (words z) t + Z.of_nat (occurrences t ts)))).
Proof.
  intros Hts. split; [by apply AddEach_ok|]. split; [apply AddEach_frame|].
  rewrite AddEach_lookup_wrap by done.
  split; intros Hocc; [by rewrite decide_True|by rewrite decide_False].
Qed.

Lemma occurrences_Permutation t ts ts' : ts ≡ₚ ts' → occurrences t ts = occurrences t ts'.
Proof. intros Hperm. unfold occurrences. by rewrite Hperm. Qed.

(** The result of a run without an empty string depends on the tokens, not
    on their order. *)
Lemma AddEach_Permutation z ts ts' :
  ts ≡ₚ ts' → "" ∉ ts → AddEach z ts = AddEach z ts'.
Proof.
  intros Hperm Hts.
  assert ("" ∉ ts') as Hts' by (by rewrite <- Hperm).
  pose proof (AddEach_ok z ts Hts) as Hok. pose proof (AddEach_ok z ts' Hts') as Hok'.
  pose proof (AddEach_frame z ts) as Hfr. pose proof (AddEach_frame z ts') as Hfr'.
  assert (words (AddEach z ts).1 = words (AddEach z ts').1) as Hwords.
  { apply map_eq. intros t. rewrite !AddEach_lookup_wrap by done.
    by rewrite (occurrences_Permutation t ts ts'). }
  destruct (AddEach z ts) as [z1 r1], (AddEach z ts') as [z2 r2]. cbn in *.
  subst r1 r2. f_equal. rewrite Hfr, Hfr'. by rewrite Hwords.
Qed.

(** X3: the order of the calls does not matter. Two runs of [Add] calls over
    the same tokens, none of them empty, in any two orders, end in the same
    [Zipf] (also when counts wrap around); in particular two calls
    commute. *)
Theorem AddEach_order_irrelevant z ts ts' s t :
  ts ≡ₚ ts' → "" ∉ ts →
  AddEach z ts = AddEach z ts'
  ∧ (s ≠ "" → t ≠ "" → (Add (Add z s).1 t).1 = (Add (Add z t).1 s).1).
Proof.
  intros Hperm Hts. split; [by apply AddEach_Permutation|].
  intros Hs Ht.
  assert (AddEach z [s; t] = AddEach z [t; s]) as Hst.
  { apply AddEach_Permutation; [apply perm_swap|].
    apply not_elem_of_cons. split; [congruence|].
    apply not_elem_of_cons. split; [congruence|apply not_elem_of_nil]. }
  cbn [AddEach] in Hst.
  rewrite (Add_nonempty z s), (Add_nonempty z t) in * by done. cbn [fst] in *.
  destruct (Add _ t) as [z1 [e1|]] eqn:H1; destruct (Add _ s) as [z2 [e2|]] eqn:H2;
    cbn [fst]; congruence.
Qed.

End MoreAggregatorFacts.

(** The run of ["b"], ["a"], ["b"] and the run of ["b"], ["b"], ["a"] on a new
    [Zipf]: nil, and ["b"] counted twice; the same [Zipf] either way. *)
Lemma AddEach_counts_wrapped_witness :
  (AddEach (z_new tt) ["b"; "a"; "b"]).2 = None
  ∧ words (AddEach (z_new tt) ["b"; "a"; "b"]).1 !! "b" = Some 2.
Proof.
  assert ("" ∉ ["b"; "a"; "b"]) as Hts by compute_done.
  split.
  - exact (proj1 (AddEach_counts_wrapped (z_new tt) ["b"; "a"; "b"] "b" Hts)).
  - apply (proj2 (proj2 (proj2 (AddEach_counts_wrapped (z_new tt) ["b"; "a"; "b"] "b" Hts)))).
    compute_done.
Defined.

Lemma AddEach_order_irrelevant_witness :
  AddEach (z_new tt) ["b"; "a"; "b"] = AddEach (z_new tt) ["b"; "b"; "a"].
Proof.
  refine (proj1 (AddEach_order_irrelevant (z_new tt) ["b"; "a"; "b"] ["b"; "b"; "a"]
                   "a" "b" _ _)).
  - apply perm_skip, perm_swap.
  - compute_done.
Defined.

(** ** [readLines] and more on [Walk] *)

Lemma length_lt_1_empty (line : string) : (String.length line < 1)%nat ↔ line = "".
Proof. destruct line; simpl; split; (done || lia). Qed.

Section MoreTraverserFacts.

Context {W : Type}.
Variable SplitWord : string → list string * option error.
Variable SplitSymbol : string → list string * option error.
Variable os_Open : string → File.
Variable tree : string → list visit.
Implicit Types (z : Zipf W) (line : string) (v : visit) (vs : list visit).

(** X4: [readLines] never returns an empty line; the lines it returns are
    lines the scanner yielded, in the scanner's order; it returns a nil error
    exactly when [os.Open], the scanner and [Close] all succeeded, and then
    the lines are all the non-empty lines scanned; and when [os.Open] or
    [Close] fails it returns no line at all, whatever was scanned. *)
Theorem readLines_no_empty_line (p : string) :
  Forall (λ line, line ≠ "") (readLines os_Open p).1
  ∧ (readLines os_Open p).1 `sublist_of` scanned (os_Open p)
  ∧ ((readLines os_Open p).2 = None
     ↔ open_err (os_Open p) = None ∧ scan_err (os_Open p) = None
       ∧ close_err (os_Open p) = None)
  ∧ ((readLines os_Open p).2 = None →
     (readLines os_Open p).1 = filter (λ line, line ≠ "") (scanned (os_Open p)))
  ∧ (is_Some (open_err (os_Open p)) ∨ is_Some (close_err (os_Open p)) →
     (readLines os_Open p).1 = [] ∧ is_Some (readLines os_Open p).2).
Proof.
  unfold readLines.
  assert (filter (λ line, ¬ (String.length line < 1)%nat) (scanned (os_Open p))
          = filter (λ line, line ≠ "") (scanned (os_Open p))) as Hfilter.
  { apply list_filter_iff. intros line. by rewrite length_lt_1_empty. }
  rewrite Hfilter.
  destruct (open_err (os_Open p)) as [eo|], (close_err (os_Open p)) as [ec|],
    (scan_err (os_Open p)) as [es|]; cbn [fst snd].
  all: split_and!; try done; try apply sublist_nil_l; try apply sublist_filter;
    try (by apply Forall_forall; intros line [Hne _]%list_elem_of_filter);
    try (split; [done|by intros (? & ? & ?)]);
    try (intros _; split; [done|eauto]);
    try (by intros [[? ?]|[? ?]]).
Qed.

(** The lines [readLines] returns never take the [continue] of the empty-line
    test in [line_body]. *)
Lemma readLines_lines_nonempty (p : string) line :
  line ∈ (readLines os_Open p).1 → bool_decide (String.length line < 1)%nat = false.
Proof.
  intros Hin. apply bool_decide_eq_false. rewrite length_lt_1_empty.
  revert line Hin. apply Forall_forall. unfold readLines.
  destruct (open_err (os_Open p)); [by constructor|].
  destruct (close_err (os_Open p)); [by constructor|].
  apply Forall_forall. intros line [Hne _]%list_elem_of_filter.
  by rewrite length_lt_1_empty in Hne.
Qed.

Lemma set_words_set_words z (m m' : gmap string Z) :
  set_words (set_words z m) m' = set_words z m'.
Proof. done. Qed.

Lemma line_body_frame z line :
  (line_body SplitWord SplitSymbol z line).1
  = set_words z (words (line_body SplitWord SplitSymbol z line).1).
Proof. rewrite line_body_tokens. apply AddEach_frame. Qed.

Lemma each_line_frame z lines :
  (each_line SplitWord SplitSymbol z lines).1
  = set_words z (words (each_line SplitWord SplitSymbol z lines).1).
Proof.
  revert z. induction lines as [|line lines IH]; intros z; [by rewrite set_words_words|].
  cbn [each_line]. pose proof (line_body_frame z line) as Hline.
  destruct (line_body SplitWord SplitSymbol z line) as [z' [e|]]; cbn [fst] in *; [done|].
  rewrite IH. by rewrite Hline at 1.
Qed.

Lemma walk_fn_frame z name info err :
  (walk_fn SplitWord SplitSymbol os_Open z name info err).1
  = set_words z (words (walk_fn SplitWord SplitSymbol os_Open z name info err).1).
Proof.
  unfold walk_fn. destruct (match info with Some i => IsDir i | None => false end).
  { by rewrite set_words_words. }
  destruct (readLines os_Open name) as [lines [e|]]; [by rewrite set_words_words|].
  apply each_line_frame.
Qed.

Lemma filepath_Walk_frame vs : ∀ z,
  (filepath_Walk SplitWord SplitSymbol os_Open vs z).1
  = set_words z (words (filepath_Walk SplitWord SplitSymbol os_Open vs z).1).
Proof.
  induction vs as [|v vs IH]; intros z; [by rewrite set_words_words|].
  cbn [filepath_Walk]. pose proof (walk_fn_frame z (v_name v) (v_info v) (v_err v)) as Hv.
  destruct (walk_fn _ _ _ _ _ _ _) as [z' [e|]]; cbn [fst] in *; [done|].
  rewrite IH. by rewrite Hv at 1.
Qed.

(** X5: [Walk] writes no field of the [Zipf] but the table, whether it
    returns an error or not: the path, the limit, the writer, the flag,
    [counts] and the collection are as before, and the mutex is released as
    often as it was taken. *)
Theorem Walk_changes_only_words z dir :
  path (Walk SplitWord SplitSymbol os_Open tree z dir).1 = path z
  ∧ limit (Walk SplitWord SplitSymbol os_Open tree z dir).1 = limit z
  ∧ out (Walk SplitWord SplitSymbol os_Open tree z dir).1 = out z
  ∧ symbols (Walk SplitWord SplitSymbol os_Open tree z dir).1 = symbols z
  ∧ counts (Walk SplitWord SplitSymbol os_Open tree z dir).1 = counts z
  ∧ collection (Walk SplitWord SplitSymbol os_Open tree z dir).1 = collection z
  ∧ mu (Walk SplitWord SplitSymbol os_Open tree z dir).1 = mu z.
Proof.
  unfold Walk. rewrite filepath_Walk_frame. by split_and!.
Qed.

(** Directories are passed over. *)
Lemma filepath_Walk_skips_dirs vs : ∀ z,
  filepath_Walk SplitWord SplitSymbol os_Open vs z
  = filepath_Walk SplitWord SplitSymbol os_Open (filter (λ v, is_dir v = false) vs) z.
Proof.
  induction vs as [|v vs IH]; intros z; [done|].
  destruct (is_dir v) eqn:Hv.
  - rewrite filter_cons_False by (rewrite Hv; done).
    cbn [filepath_Walk]. unfold walk_fn. unfold is_dir in Hv. rewrite Hv. apply IH.
  - rewrite filter_cons_True by done. cbn [filepath_Walk].
    destruct (walk_fn _ _ _ _ _ _ _) as [z' [e|]]; [done|apply IH].
Qed.

(** X6: the visits of directories do not count: [Walk] returns what it
    returns on the visits that are not directories, without opening a
    directory; over a tree of directories only it returns nil and the [Zipf]
    it was given. *)
Theorem Walk_skips_directories z dir :
  Walk SplitWord SplitSymbol os_Open tree z dir
  = filepath_Walk SplitWord SplitSymbol os_Open
      (filter (λ v, is_dir v = false) (tree dir)) z
  ∧ (Forall (λ v, is_dir v = true) (tree dir) →
     Walk SplitWord SplitSymbol os_Open tree z dir = (z, None)).
Proof.
  unfold Walk. split; [apply filepath_Walk_skips_dirs|].
  intros Hdirs. rewrite filepath_Walk_skips_dirs.
  replace (filter (λ v, is_dir v = false) (tree dir)) with (@nil visit); [done|].
  symmetry. induction Hdirs as [|v vs Hv _ IH]; [done|].
  rewrite filter_cons_False by (rewrite Hv; done). done.
Qed.

(** X7: an error of [readLines] on a file (from [os.Open], the scanner or
    [Close]) stops the walk: [Walk] returns that error, the [Zipf] is the one
    the visits before that file led to, no token of the file is counted
    (also when lines were scanned before the error), and the visits after it
    are not made. *)
Theorem Walk_aborts_on_read_error z dir pre v post z1 e :
  tree dir = pre ++ v :: post →
  filepath_Walk SplitWord SplitSymbol os_Open pre z = (z1, None) →
  is_dir v = false →
  (readLines os_Open (v_name v)).2 = Some e →
  Walk SplitWord SplitSymbol os_Open tree z dir = (z1, Some e).
Proof.
  intros Htree Hpre Hfile Hread.
  unfold Walk. rewrite Htree, filepath_Walk_app, Hpre.
  cbn [filepath_Walk]. unfold walk_fn. unfold is_dir in Hfile. rewrite Hfile.
  destruct (readLines os_Open (v_name v)) as [lines r]. cbn in Hread. by subst r.
Qed.

Lemma each_line_tokens lines : ∀ z,
  each_line SplitWord SplitSymbol z lines
  = AddEach z (lines_tokens SplitWord SplitSymbol (symbols z) lines).
Proof.
  induction lines as [|line lines IH]; intros z; [done|].
  unfold lines_tokens. cbn [each_line fmap list_fmap concat].
  rewrite AddEach_app, line_body_tokens.
  pose proof (symbols_AddEach z (line_tokens SplitWord SplitSymbol (symbols z) line)) as Hsym.
  destruct (AddEach z _) as [z' [e|]]; [done|]. cbn in Hsym.
  rewrite IH. by rewrite Hsym.
Qed.

Lemma filepath_Walk_tokens vs : ∀ z,
  reads_ok os_Open vs →
  filepath_Walk SplitWord SplitSymbol os_Open vs z
  = AddEach z (walk_tokens SplitWord SplitSymbol os_Open (symbols z) vs).
Proof.
  induction vs as [|v vs IH]; intros z Hok; [done|].
  assert (reads_ok os_Open vs) as Hok'.
  { intros v' Hin. apply Hok. by right. }
  unfold walk_tokens. cbn [filepath_Walk fmap list_fmap concat].
  rewrite AddEach_app. unfold visit_tokens at 1. unfold walk_fn.
  pose proof (Hok v (list_elem_of_here _ _)) as Hv. unfold is_dir in *.
  destruct (match v_info v with Some i => IsDir i | None => false end).
  { cbn [AddEach]. by apply IH. }
  specialize (Hv eq_refl).
  destruct (readLines os_Open (v_name v)) as [lines r]. cbn in Hv. subst r. cbn [fst].
  rewrite each_line_tokens.
  pose proof (symbols_AddEach z (lines_tokens SplitWord SplitSymbol (symbols z) lines)) as Hsym.
  destruct (AddEach z _) as [z' [e|]]; [done|]. cbn in Hsym.
  rewrite IH by done. by rewrite Hsym.
Qed.

(** X8: when every file of the tree is read without an error, [Walk] is the
    run of [Add] calls over the tokens of the walk: the tokens of each file
    in the order of the visits, of each line in the order of the lines, the
    words of a line before its symbols. So when no token is empty, [Walk]
    returns nil, a term that is no token keeps its entry, and a term that is
    a token [n] times holds the count it had (0 when absent) plus [n],
    wrapped to 64 bits. *)
Theorem Walk_counts_tokens z dir t :
  reads_ok os_Open (tree dir) →
  Walk SplitWord SplitSymbol os_Open tree z dir
  = AddEach z (walk_tokens SplitWord SplitSymbol os_Open (symbols z) (tree dir))
  ∧ ("" ∉ walk_tokens SplitWord SplitSymbol os_Open (symbols z) (tree dir) →
     (Walk SplitWord SplitSymbol os_Open tree z dir).2 = None
     ∧ words (Walk SplitWord SplitSymbol os_Open tree z dir).1 !! t
       = if decide (occurrences t
                      (walk_tokens SplitWord SplitSymbol os_Open (symbols z) (tree dir))
                    = 0%nat)
         then words z !! t
         else Some (wrap64 (count_of (words z) t
                            + Z.of_nat (occurrences t
                                (walk_tokens SplitWord SplitSymbol os_Open (symbols z)
                                   (tree dir)))))).
Proof.
  intros Hok. unfold Walk. rewrite filepath_Walk_tokens by done.
  split; [done|]. intros Htoks. split; [by apply AddEach_ok|by apply AddEach_lookup_wrap].
Qed.

End MoreTraverserFacts.

(** In the example file system the scanner of [dir/g] fails: the walk
    returns its error, with the words of [dir/f] counted and ["three"]
    not. *)
Lemma Walk_aborts_on_read_error_witness :
  Walk space_SplitWord demo_SplitSymbol broken_Open demo_tree (z_new tt) "dir"
  = ((AddEach (z_new tt) ["one"; "two"; "two"]).1, Some (os_error "read error")).
Proof.
  refine (@Walk_aborts_on_read_error unit space_SplitWord demo_SplitSymbol broken_Open
            demo_tree (z_new tt) "dir"
            [mkVisit "dir" (Some (mkFileInfo true)) None;
             mkVisit "dir/f" (Some (mkFileInfo false)) None]
            (mkVisit "dir/g" (Some (mkFileInfo false)) None) []
            (AddEach (z_new tt) ["one"; "two"; "two"]).1 (os_error "read error")
            _ _ _ _); vm_compute; reflexivity.
Defined.

(** The file [cat.txt]: ["the"] is a token three times and is counted three
    times. *)
Lemma Walk_counts_tokens_witness :
  (Walk space_SplitWord demo_SplitSymbol
        (demo_Open ["the cat sat on the mat"; "the cat ran"]) cat_tree (z_new tt) "dir").2
  = None
  ∧ words (Walk space_SplitWord demo_SplitSymbol
             (demo_Open ["the cat sat on the mat"; "the cat ran"]) cat_tree
             (z_new tt) "dir").1 !! "the"
    = Some 3.
Proof.
  refine (proj2 (@Walk_counts_tokens unit space_SplitWord demo_SplitSymbol
                   (demo_Open ["the cat sat on the mat"; "the cat ran"]) cat_tree
                   (z_new tt) "dir" "the" _) _).
  - intros v _ _. reflexivity.
  - compute_done.
Defined.

(** ** More on [Report] and [Run] *)

Section MoreReporterFacts.

Context {W : Type} `{!Writer W} `{!Sorter}.
Variable SplitWord : string → list string * option error.
Variable SplitSymbol : string → list string * option error.
Variable os_Open : string → File.
Variable tree : string → list visit.
Implicit Types (z : Zipf W) (iter : list (string * Z)).

(** X9: [Report] selects the first [limit] entries that the range over the
    table yields, whatever their counts: after the call [z.collection] holds
    what it held before together with these entries. With a limit of 0 or
    below it selects none, and writes only the lines of the entries
    [z.collection] held already. *)
Theorem Report_selects_first_entries z iter :
  Z.of_nat (length iter) ≤ max_int64 →
  collection (Report z iter).1
  ≡ₚ collection z ++ ((λ e, mkTerm e.1 e.2) <$> take (Z.to_nat (limit z)) iter)
  ∧ (limit z ≤ 0 →
     collection (Report z iter).1 ≡ₚ collection z
     ∧ length (Report_lines z iter) = length (collection z)).
Proof.
  intros Hlen.
  assert (collection (Report z iter).1
          ≡ₚ collection z ++ ((λ e, mkTerm e.1 e.2) <$> take (Z.to_nat (limit z)) iter))
    as Hsel.
  { rewrite Report_collection, range_words_take by lia.
    by replace (limit z - 0) with (limit z) by lia. }
  split; [done|]. intros Hlim.
  replace (Z.to_nat (limit z)) with 0%nat in Hsel by lia.
  rewrite take_0, app_nil_r in Hsel. split; [done|].
  unfold Report_lines. by rewrite length_fmap, Hsel.
Qed.

(** X10: with a limit that is at least the number of terms of the table, on
    a [Zipf] whose collection is empty, [Report] writes one line for every
    term of the table, with the count the table holds for it, and no other
    line, in whatever order the range yields the entries. *)
Theorem Report_all_terms z iter :
  range_order (words z) iter →
  Z.of_nat (size (words z)) ≤ limit z → limit z ≤ max_int64 →
  collection z = [] →
  collection (Report z iter).1 ≡ₚ (λ e, mkTerm e.1 e.2) <$> map_to_list (words z)
  ∧ Report_lines z iter
    ≡ₚ (λ e, format_Term (mkTerm e.1 e.2)) <$> map_to_list (words z)
  ∧ NoDup (Word <$> collection (Report z iter).1)
  ∧ (∀ k c, mkTerm k c ∈ collection (Report z iter).1 ↔ words z !! k = Some c).
Proof.
  intros Hiter Hsize Hmax Hnil.
  pose proof (range_order_length _ _ Hiter) as Hlen.
  assert (collection (Report z iter).1 ≡ₚ (λ e, mkTerm e.1 e.2) <$> map_to_list (words z))
    as Hall.
  { rewrite Report_collection, range_words_take, Hnil, app_nil_l by lia.
    rewrite take_ge by lia. by rewrite Hiter. }
  split; [done|]. split; [|split].
  - unfold Report_lines. rewrite Hall. by rewrite <- list_fmap_compose.
  - rewrite Hall, <- list_fmap_compose. apply NoDup_fst_map_to_list.
  - intros k c. rewrite Hall, list_elem_of_fmap. split.
    + intros ([k' c'] & [= -> ->] & Hin). by apply elem_of_map_to_list.
    + intros Hkc. exists (k, c). split; [done|]. by apply elem_of_map_to_list.
Qed.

Lemma filepath_Walk_only_dirs vs z :
  Forall (λ v, is_dir v = true) vs →
  filepath_Walk SplitWord SplitSymbol os_Open vs z = (z, None).
Proof.
  intros Hdirs. rewrite filepath_Walk_skips_dirs.
  replace (filter (λ v, is_dir v = false) vs) with (@nil visit); [done|].
  symmetry. induction Hdirs as [|v vs' Hv _ IH]; [done|].
  rewrite filter_cons_False by (rewrite Hv; done). done.
Qed.

Lemma Report_empty z :
  words z = ∅ → collection z = [] → range_order (words z) [] ∧ Report z [] = (z, None).
Proof.
  intros Hwords Hnil. split.
  - unfold range_order. by rewrite Hwords, map_to_list_empty.
  - pose proof (Report_eq z []) as Heq. cbv zeta in Heq. rewrite Heq.
    cbn [range_words]. rewrite Hnil. cbn [app].
    pose proof (sort_Sort_perm ByCountAsc_Less []) as Hsort.
    apply Permutation_nil_r in Hsort. rewrite Hsort. cbn.
    destruct z. cbn in *. by subst.
Qed.

(** X11: when the walk returns an error, [Run] returns that error and the
    [Zipf] of the walk, without calling [Report]: nothing is written and the
    collection is as it was. When the walk returns nil, [Run] returns what
    [Report] returns on the [Zipf] of the walk. *)
Theorem Run_reports_only_after_walk z (order : gmap string Z → list (string * Z)) :
  (∀ e, (Walk SplitWord SplitSymbol os_Open tree z (path z)).2 = Some e →
     Run SplitWord SplitSymbol os_Open tree z order
     = ((Walk SplitWord SplitSymbol os_Open tree z (path z)).1, Some e)
     ∧ out (Run SplitWord SplitSymbol os_Open tree z order).1 = out z
     ∧ collection (Run SplitWord SplitSymbol os_Open tree z order).1 = collection z)
  ∧ ((Walk SplitWord SplitSymbol os_Open tree z (path z)).2 = None →
     Run SplitWord SplitSymbol os_Open tree z order
     = Report (Walk SplitWord SplitSymbol os_Open tree z (path z)).1
         (order (words (Walk SplitWord SplitSymbol os_Open tree z (path z)).1))).
Proof.
  unfold Run, Walk.
  pose proof (filepath_Walk_frame SplitWord SplitSymbol os_Open (tree (path z)) z) as Hfr.
  destruct (filepath_Walk SplitWord SplitSymbol os_Open (tree (path z)) z) as [z' [e|]];
    cbn [fst snd] in *.
  - split; [|done]. intros e' [= <-]. rewrite Hfr. by split_and!.
  - split; [done|]. intros _. by destruct (Report z' (order (words z'))) as [z'' [e|]].
Qed.

(** X12: on a [Zipf] made by [New], over a tree in which [filepath.Walk]
    visits directories only (an empty directory), [Run] returns nil, writes
    nothing and leaves the [Zipf] as [New] made it. *)
Theorem Run_without_files dir lim syms (output : W) z
    (order : gmap string Z → list (string * Z)) :
  New dir lim syms output = (Some z, None) →
  Forall (λ v, is_dir v = true) (tree dir) →
  range_order ∅ (order ∅) →
  Run SplitWord SplitSymbol os_Open tree z order = (z, None)
  ∧ out z = output ∧ words z = ∅.
Proof.
  intros HNew Hdirs Horder. unfold New in HNew.
  destruct (String.eqb dir ""); [done|]. injection HNew as <-.
  unfold range_order in Horder. rewrite map_to_list_empty in Horder.
  apply Permutation_nil_r in Horder.
  unfold Run, Walk. cbn [path]. rewrite filepath_Walk_only_dirs by done.
  cbn [words]. rewrite Horder.
  match goal with
  | |- context [Report ?x []] => destruct (Report_empty x eq_refl eq_refl) as [_ ->]
  end.
  done.
Qed.

End MoreReporterFacts.

(** The table of ["a"] and ["b"] with limit 1 and the range that yields ["b"]
    first: [Report] selects ["b"]. *)
Lemma Report_selects_first_entries_witness :
  collection (@Report _ recorder merge_Sorter
                (mkZipf "dir" 1 [] false {[ "a" := 5; "b" := 7 ]} ∅ [] (mkRWMutex 0))
                [("b", 7); ("a", 5)]).1
  ≡ₚ [mkTerm "b" 7].
Proof.
  refine (proj1 (@Report_selects_first_entries _ recorder merge_Sorter
                   (mkZipf "dir" 1 [] false {[ "a" := 5; "b" := 7 ]} ∅ [] (mkRWMutex 0))
                   [("b", 7); ("a", 5)] _)).
  vm_compute. discriminate.
Defined.

(** The same table with limit 10: both terms are reported. *)
Lemma Report_all_terms_witness :
  mkTerm "a" 5 ∈ collection (@Report _ recorder merge_Sorter
                (mkZipf "dir" 10 [] false {[ "a" := 5; "b" := 7 ]} ∅ [] (mkRWMutex 0))
                [("b", 7); ("a", 5)]).1
  ↔ ({[ "a" := 5; "b" := 7 ]} : gmap string Z) !! "a" = Some 5.
Proof.
  refine (proj2 (proj2 (proj2 (@Report_all_terms _ recorder merge_Sorter
                   (mkZipf "dir" 10 [] false {[ "a" := 5; "b" := 7 ]} ∅ [] (mkRWMutex 0))
                   [("b", 7); ("a", 5)] _ _ _ _))) "a" 5).
  - unfold range_order. vm_compute. apply perm_swap.
  - vm_compute. discriminate.
  - vm_compute. discriminate.
  - reflexivity.
Defined.

(** The example directory with the empty token: [Run] returns the error of
    the walk and the recording writer has been given nothing. *)
Lemma Run_reports_only_after_walk_witness :
  (@Run _ demo_SplitWord demo_SplitSymbol (demo_Open ["one"; ""; "bad"; "two"]) demo_tree
        recorder merge_Sorter (z_new []) map_to_list).2
  = Some (errors_New "empty word")
  ∧ out (@Run _ demo_SplitWord demo_SplitSymbol (demo_Open ["one"; ""; "bad"; "two"])
           demo_tree recorder merge_Sorter (z_new []) map_to_list).1
    = [].
Proof.
  destruct (proj1 (@Run_reports_only_after_walk _ recorder merge_Sorter
                     demo_SplitWord demo_SplitSymbol
                     (demo_Open ["one"; ""; "bad"; "two"]) demo_tree (z_new []) map_to_list)
             (errors_New "empty word") eq_refl) as (Hrun & Hout & _).
  split; [by rewrite Hrun|exact Hout].
Defined.

(** A directory with a subdirectory and no file. *)
Lemma Run_without_files_witness :
  @Run _ demo_SplitWord demo_SplitSymbol (demo_Open []) 
       (λ dir, [mkVisit dir (Some (mkFileInfo true)) None;
                mkVisit (dir +:+ "/sub") (Some (mkFileInfo true)) None])
       recorder merge_Sorter (z_new []) map_to_list
  = (z_new [], None).
Proof.
  refine (proj1 (@Run_without_files _ recorder merge_Sorter demo_SplitWord demo_SplitSymbol
                   (demo_Open [])
                   (λ dir, [mkVisit dir (Some (mkFileInfo true)) None;
                            mkVisit (dir +:+ "/sub") (Some (mkFileInfo true)) None])
                   "dir" 10 false [] (z_new []) map_to_list _ _ _)).
  - reflexivity.
  - repeat constructor.
  - unfold range_order. by rewrite map_to_list_empty.
Defined.

(** ** The read lock under interleavings *)

Section LockFacts.

Context {W : Type}.
Implicit Types (z : Zipf W) (g : goroutine) (gs : list goroutine).

Lemma lock_holders_cons g gs : lock_holders (g :: gs) = (lock_count g + lock_holders gs)%nat.
Proof.
  unfold lock_holders, lock_count. rewrite filter_cons.
  destruct (holds_RLock g); by case_decide.
Qed.

Lemma lock_holders_insert gs : ∀ i g g',
  gs !! i = Some g →
  (lock_holders (<[i := g']> gs) + lock_count g = lock_holders gs + lock_count g')%nat.
Proof.
  induction gs as [|g0 gs IH]; intros i g g' Hi; [done|].
  destruct i as [|i]; cbn in Hi.
  - injection Hi as ->. change (<[0%nat := g']> (g :: gs)) with (g' :: gs).
    rewrite !lock_holders_cons. lia.
  - change (<[S i := g']> (g0 :: gs)) with (g0 :: <[i := g']> gs).
    rewrite !lock_holders_cons. specialize (IH i g g' Hi). lia.
Qed.

Lemma lock_holders_lookup gs i g :
  gs !! i = Some g → (lock_count g ≤ lock_holders gs)%nat.
Proof.
  revert i. induction gs as [|g0 gs IH]; intros i Hi; [done|].
  rewrite lock_holders_cons. destruct i as [|i]; cbn in Hi.
  - injection Hi as ->. lia.
  - specialize (IH i Hi). lia.
Qed.

(** A statement of [Add] keeps the count of the mutex in step with the
    goroutines that hold the lock, and writes no field but the table and the
    mutex. *)
Lemma sched_step_lock z gs i z' gs' base :
  sched_step (z, gs) i = Some (z', gs') →
  readerCount (mu z) = (base + lock_holders gs)%nat →
  readerCount (mu z') = (base + lock_holders gs')%nat
  ∧ z' = set_mu (set_words z (words z')) (mu z').
Proof.
  unfold sched_step. destruct (gs !! i) as [g|] eqn:Hi; [|done].
  pose proof (lock_holders_lookup gs i g Hi) as Hle.
  destruct g as [s pc0]. unfold step_Add. cbn [arg pc].
  destruct pc0 as [| | |count ok|count|ret|ret]; cbn [arg pc].
  - intros [= <- <-] Hrc.
    pose proof (lock_holders_insert gs i _ (mkGoroutine s AtCheck) Hi) as Hins.
    unfold lock_count in Hins. cbn in Hins.
    destruct z as [? ? ? ? ? ? ? [n]]. cbn in *. split; [lia|done].
  - destruct (String.eqb s "").
    + intros [= <- <-] Hrc.
      pose proof (lock_holders_insert gs i _
                    (mkGoroutine s (AtRUnlock (Some (errors_New "empty word")))) Hi) as Hins.
      unfold lock_count in Hins. cbn in Hins.
      destruct z as [? ? ? ? ? ? ? [n]]. cbn in *. split; [lia|done].
    + intros [= <- <-] Hrc.
      pose proof (lock_holders_insert gs i _ (mkGoroutine s AtIndex) Hi) as Hins.
      unfold lock_count in Hins. cbn in Hins.
      destruct z as [? ? ? ? ? ? ? [n]]. cbn in *. split; [lia|done].
  - destruct (index2 (words z) s) as [count ok]. intros [= <- <-] Hrc.
    pose proof (lock_holders_insert gs i _ (mkGoroutine s (AtInsert count ok)) Hi) as Hins.
    unfold lock_count in Hins. cbn in Hins.
    destruct z as [? ? ? ? ? ? ? [n]]. cbn in *. split; [lia|done].
  - intros [= <- <-] Hrc.
    pose proof (lock_holders_insert gs i _ (mkGoroutine s (AtStore count)) Hi) as Hins.
    unfold lock_count in Hins. cbn in Hins.
    destruct z as [? ? ? ? ? ? ? [n]]. destruct ok; cbn in *; (split; [lia|done]).
  - intros [= <- <-] Hrc.
    pose proof (lock_holders_insert gs i _ (mkGoroutine s (AtRUnlock None)) Hi) as Hins.
    unfold lock_count in Hins. cbn in Hins.
    destruct z as [? ? ? ? ? ? ? [n]]. cbn in *. split; [lia|done].
  - intros [= <- <-] Hrc.
    pose proof (lock_holders_insert gs i _ (mkGoroutine s (Returned ret)) Hi) as Hins.
    unfold lock_count in Hins, Hle. cbn in Hins, Hle.
    destruct z as [? ? ? ? ? ? ? [n]]. cbn in *. split; [lia|done].
  - done.
Qed.

Lemma run_schedule_lock sched : ∀ z gs z' gs' base,
  run_schedule (z, gs) sched = Some (z', gs') →
  readerCount (mu z) = (base + lock_holders gs)%nat →
  readerCount (mu z') = (base + lock_holders gs')%nat
  ∧ z' = set_mu (set_words z (words z')) (mu z').
Proof.
  induction sched as [|i sched IH]; intros z gs z' gs' base Hrun Hrc.
  - injection Hrun as <- <-. split; [done|]. by destruct z.
  - cbn [run_schedule] in Hrun.
    destruct (sched_step (z, gs) i) as [[z1 gs1]|] eqn:Hstep; [|done].
    destruct (sched_step_lock _ _ _ _ _ base Hstep Hrc) as [Hrc1 Hfr1].
    destruct (IH _ _ _ _ base Hrun Hrc1) as [Hrc' Hfr'].
    split; [done|]. rewrite Hfr', Hfr1. done.
Qed.

Lemma lock_holders_go_Add (ss : list string) : lock_holders (go_Add <$> ss) = 0%nat.
Proof.
  induction ss as [|s ss IH]; [done|].
  change (go_Add <$> s :: ss) with (go_Add s :: (go_Add <$> ss)).
  by rewrite lock_holders_cons, IH.
Qed.

Lemma lock_holders_returned gs :
  Forall (λ g, ∃ ret, pc g = Returned ret) gs → lock_holders gs = 0%nat.
Proof.
  induction 1 as [|g gs [ret Hg] _ IH]; [done|].
  rewrite lock_holders_cons, IH. unfold lock_count, holds_RLock. by rewrite Hg.
Qed.

(** X13: goroutines that call [Add] on one [Zipf], their statements
    interleaved in any order: at every moment the mutex counts the readers it
    counted at the start and one more for each goroutine that is between its
    [RLock] and its deferred [RUnlock]; no field but the table and the mutex
    is written; and once every call has returned, the mutex is as it was at
    the start. *)
Theorem Add_releases_RLock z (ss : list string) (sched : list nat) z' gs' :
  run_schedule (z, go_Add <$> ss) sched = Some (z', gs') →
  readerCount (mu z') = (readerCount (mu z) + lock_holders gs')%nat
  ∧ z' = set_mu (set_words z (words z')) (mu z')
  ∧ (Forall (λ g, ∃ ret, pc g = Returned ret) gs' → mu z' = mu z).
Proof.
  intros Hrun.
  destruct (run_schedule_lock sched z (go_Add <$> ss) z' gs' (readerCount (mu z)) Hrun)
    as [Hrc Hfr].
  { rewrite lock_holders_go_Add. lia. }
  split; [done|]. split; [done|].
  intros Hret. rewrite (lock_holders_returned gs' Hret) in Hrc.
  destruct (mu z') as [n'], (mu z) as [n]. cbn in Hrc. f_equal. lia.
Qed.

End LockFacts.

(** The two goroutines of the lost update, after the first two steps: both
    hold the lock, and the mutex counts two readers. *)
Lemma Add_releases_RLock_witness :
  run_schedule two_adds [0; 1]%nat
  = Some (RLock (RLock (z_new tt)), [mkGoroutine "a" AtCheck; mkGoroutine "a" AtCheck])
  ∧ readerCount (mu (RLock (RLock (z_new tt))))
    = (readerCount (mu (z_new tt))
       + lock_holders [mkGoroutine "a" AtCheck; mkGoroutine "a" AtCheck])%nat.
Proof.
  split; [reflexivity|].
  refine (proj1 (@Add_releases_RLock unit (z_new tt) ["a"; "a"] [0; 1]%nat
                   (RLock (RLock (z_new tt)))
                   [mkGoroutine "a" AtCheck; mkGoroutine "a" AtCheck] _)).
  reflexivity.
Defined.

(** ** The whole run *)

Section EndToEnd.

Context {W : Type} `{!Writer W} `{!Sorter}.
Variable SplitWord : string → list string * option error.
Variable SplitSymbol : string → list string * option error.
Variable os_Open : string → File.
Variable tree : string → list visit.
Implicit Types (z : Zipf W) (ts : list string).

(** A run of calls adds at most one key per call. *)
Lemma AddEach_size z ts : (size (words (AddEach z ts).1) ≤ size (words z) + length ts)%nat.
Proof.
  revert z. induction ts as [|w ts IH]; intros z; [cbn; lia|].
  destruct (decide (w = "")) as [->|Hw].
  { cbn [AddEach]. rewrite Add_empty. cbn. lia. }
  rewrite AddEach_cons_nonempty by done.
  etrans; [apply IH|]. cbn [words set_words length].
  rewrite map_size_insert. destruct (words z !! w); simpl; lia.
Qed.

Lemma Report_sorted z iter :
  StronglySorted (λ a b, Count a ≤ Count b) (collection (Report z iter).1).
Proof.
  pose proof (Report_eq z iter) as Heq. cbv zeta in Heq. rewrite Heq. cbn.
  eapply StronglySorted_weaken; [|apply sort_Sort_sorted, ByCountAsc_Less_StrictWeak].
  intros a b Hba. unfold ByCountAsc_Less in Hba. apply bool_decide_eq_false in Hba. lia.
Qed.

Lemma Report_collection_all z iter :
  range_order (words z) iter →
  Z.of_nat (size (words z)) ≤ limit z → limit z ≤ max_int64 →
  collection z = [] →
  collection (Report z iter).1 ≡ₚ (λ e, mkTerm e.1 e.2) <$> map_to_list (words z).
Proof.
  intros Hiter Hsize Hmax Hnil.
  pose proof (range_order_length _ _ Hiter) as Hlen.
  rewrite Report_collection, range_words_take, Hnil, app_nil_l by lia.
  rewrite take_ge by lia. by rewrite Hiter.
Qed.

Lemma occurrences_ne_0 (t : string) ts : occurrences t ts ≠ 0%nat ↔ t ∈ ts.
Proof.
  induction ts as [|u ts IH]; [by split; [|intros ?%elem_of_nil]|].
  destruct (decide (u = t)) as [->|Hne].
  - rewrite occurrences_cons_eq. split; [by left|done].
  - rewrite occurrences_cons_ne by done. rewrite IH, elem_of_cons.
    split; [by right|]. intros [Heq|Hin]; [by subst|done].
Qed.

(** X14: the whole run on a [Zipf] made by [New], when every file is read
    without an error, no token is empty, and the limit is at least the
    number of tokens (and is an [int]): [Run] returns nil; the collection
    holds exactly one entry for each distinct token of the walk, with the
    number of times it is a token, and nothing else (it is a rearrangement
    of the list of these entries, which has no token twice); the entries are
    in non-decreasing order of count; and the writer has been given the line
    of each entry, once, in that order. *)
Theorem Run_reports_token_counts dir lim syms (output : W) z
    (order : gmap string Z → list (string * Z)) t c :
  New dir lim syms output = (Some z, None) →
  reads_ok os_Open (tree dir) →
  "" ∉ walk_tokens SplitWord SplitSymbol os_Open syms (tree dir) →
  (∀ m, range_order m (order m)) →
  Z.of_nat (length (walk_tokens SplitWord SplitSymbol os_Open syms (tree dir))) ≤ lim →
  lim ≤ max_int64 →
  (Run SplitWord SplitSymbol os_Open tree z order).2 = None
  ∧ collection (Run SplitWord SplitSymbol os_Open tree z order).1
    ≡ₚ token_Term (walk_tokens SplitWord SplitSymbol os_Open syms (tree dir))
       <$> remove_dups (walk_tokens SplitWord SplitSymbol os_Open syms (tree dir))
  ∧ NoDup (Word <$> collection (Run SplitWord SplitSymbol os_Open tree z order).1)
  ∧ (mkTerm t c ∈ collection (Run SplitWord SplitSymbol os_Open tree z order).1
     ↔ occurrences t (walk_tokens SplitWord SplitSymbol os_Open syms (tree dir)) ≠ 0%nat
       ∧ c = Z.of_nat (occurrences t
                         (walk_tokens SplitWord SplitSymbol os_Open syms (tree dir))))
  ∧ StronglySorted (λ a b, Count a ≤ Count b)
      (collection (Run SplitWord SplitSymbol os_Open tree z order).1)
  ∧ out (Run SplitWord SplitSymbol os_Open tree z order).1
    = write_all output
        (format_Term <$> collection (Run SplitWord SplitSymbol os_Open tree z order).1).
Proof.
  intros HNew Hok Htoks Horder Hlen Hmax. unfold New in HNew.
  destruct (String.eqb dir ""); [done|]. injection HNew as <-.
  set (z0 := mkZipf dir lim output syms ∅ ∅ [] (mkRWMutex 0)).
  set (toks := walk_tokens SplitWord SplitSymbol os_Open syms (tree dir)) in *.
  assert (Walk SplitWord SplitSymbol os_Open tree z0 (path z0) = AddEach z0 toks) as HWalk.
  { unfold Walk. cbn [path z0]. by rewrite filepath_Walk_tokens. }
  pose proof (AddEach_ok z0 toks Htoks) as Hnil.
  pose proof (AddEach_frame z0 toks) as Hfr.
  assert (size (words (AddEach z0 toks).1) ≤ length toks)%nat as Hsize.
  { etrans; [apply AddEach_size|]. cbn [words z0]. rewrite map_size_empty. lia. }
  assert (∀ u, words (AddEach z0 toks).1 !! u
               = if decide (occurrences u toks = 0%nat) then None
                 else Some (Z.of_nat (occurrences u toks))) as Hlookup.
  { intros u. rewrite AddEach_lookup_wrap by done. case_decide; [done|].
    f_equal. unfold count_of. cbn [words z0]. rewrite lookup_empty. simpl.
    apply wrap64_in_range.
    assert (occurrences u toks ≤ length toks)%nat by apply length_filter.
    unfold min_int64. lia. }
  unfold Run. rewrite HWalk.
  destruct (AddEach z0 toks) as [z1 r]. cbn [fst snd] in *. subst r.
  set (iter := order (words z1)).
  assert (limit z1 = lim ∧ collection z1 = [] ∧ out z1 = output) as (Hlim1 & Hcol1 & Hout1).
  { by rewrite Hfr. }
  assert (Report z1 iter = ((Report z1 iter).1, None)) as HRep.
  { by destruct (Report z1 iter) as [z2 r] eqn:HR; pose proof (f_equal snd HR) as Hr;
      cbn in Hr; subst r. }
  rewrite HRep. cbn [fst snd].
  assert (collection (Report z1 iter).1 ≡ₚ (λ e, mkTerm e.1 e.2) <$> map_to_list (words z1))
    as Hall.
  { apply Report_collection_all; [apply Horder|rewrite Hlim1; lia|by rewrite Hlim1|done]. }
  assert (∀ k c', mkTerm k c' ∈ (λ e : string * Z, mkTerm e.1 e.2) <$> map_to_list (words z1)
                  ↔ occurrences k toks ≠ 0%nat ∧ c' = Z.of_nat (occurrences k toks))
    as Hmem.
  { intros k c'. rewrite list_elem_of_fmap. split.
    - intros ([k' c''] & [= -> ->] & Hin). apply elem_of_map_to_list in Hin.
      rewrite Hlookup in Hin. case_decide; [done|]. by injection Hin as <-.
    - intros [Hocc ->]. exists (k, Z.of_nat (occurrences k toks)). split; [done|].
      apply elem_of_map_to_list. rewrite Hlookup. by rewrite decide_False. }
  split; [done|]. split; [|split; [|split; [|split]]].
  - rewrite Hall. apply NoDup_Permutation.
    + apply NoDup_fmap_2_strong; [|apply NoDup_map_to_list].
      intros [k1 c1] [k2 c2] _ _ [= -> ->]. done.
    + apply NoDup_fmap_2_strong; [|apply NoDup_remove_dups].
      intros t1 t2 _ _ [= -> _]. done.
    + intros [k c']. rewrite Hmem. rewrite list_elem_of_fmap. unfold token_Term. split.
      * intros [Hocc ->]. exists k. split; [done|].
        by apply elem_of_remove_dups, occurrences_ne_0.
      * intros (t' & [= -> ->] & Hin). split; [|done].
        by apply occurrences_ne_0, elem_of_remove_dups.
  - rewrite Hall, <- list_fmap_compose. apply NoDup_fst_map_to_list.
  - rewrite Hall. apply Hmem.
  - apply Report_sorted.
  - rewrite Report_out. unfold Report_lines. by rewrite Hout1.
Qed.

End EndToEnd.

(** The file [cat.txt] with limit 10: the run returns nil, and the
    collection is a rearrangement of the six entries (the, 3), (cat, 2),
    (sat, 1), (on, 1), (mat, 1), (ran, 1). *)
Lemma Run_reports_token_counts_witness :
  (@Run _ space_SplitWord demo_SplitSymbol
        (demo_Open ["the cat sat on the mat"; "the cat ran"]) cat_tree
        recorder merge_Sorter (z_new []) map_to_list).2 = None
  ∧ collection (@Run _ space_SplitWord demo_SplitSymbol
                  (demo_Open ["the cat sat on the mat"; "the cat ran"]) cat_tree
                  recorder merge_Sorter (z_new []) map_to_list).1
    ≡ₚ token_Term
         (walk_tokens space_SplitWord demo_SplitSymbol
            (demo_Open ["the cat sat on the mat"; "the cat ran"]) false (cat_tree "dir"))
       <$> remove_dups
             (walk_tokens space_SplitWord demo_SplitSymbol
                (demo_Open ["the cat sat on the mat"; "the cat ran"]) false
                (cat_tree "dir")).
Proof.
  pose proof (@Run_reports_token_counts _ recorder merge_Sorter
                space_SplitWord demo_SplitSymbol
                (demo_Open ["the cat sat on the mat"; "the cat ran"]) cat_tree
                "dir" 10 false [] (z_new []) map_to_list "the" 3) as Hrun.
  destruct Hrun as (Hnil & Hperm & _).
  - reflexivity.
  - intros v _ _. reflexivity.
  - compute_done.
  - intros m. unfold range_order. reflexivity.
  - vm_compute. discriminate.
  - vm_compute. discriminate.
  - split; [exact Hnil|exact Hperm].
Defined.

(** The entries of the tokens of [cat.txt], each token once. *)
Lemma cat_token_entries :
  token_Term
    (walk_tokens space_SplitWord demo_SplitSymbol
       (demo_Open ["the cat sat on the mat"; "the cat ran"]) false (cat_tree "dir"))
  <$> remove_dups
        (walk_tokens space_SplitWord demo_SplitSymbol
           (demo_Open ["the cat sat on the mat"; "the cat ran"]) false (cat_tree "dir"))
  = [mkTerm "sat" 1; mkTerm "on" 1; mkTerm "mat" 1; mkTerm "the" 3; mkTerm "cat" 2;
     mkTerm "ran" 1].
Proof. by vm_compute. Qed.

End zipf.
